(** * file-bom-remover: a shallow embedding of [main.py]

    The program strips a Byte Order Mark from a file, or from the files of
    a directory, optionally descending into subdirectories.  The embedding
    follows the Python source function by function:

    - the file system is a finite map from paths to entries;
    - every function of the source is a computation in a small monad that
      threads the file system, may raise a Python exception, and emits the
      chronological list of the system calls and [logging] calls it made;
    - [process_directory], the only recursive function, takes the number
      of its own nested calls the interpreter's stack has room for: a
      descent that finds no room raises [RecursionError], which the handler
      of line 94 catches. *)

From stdpp Require Import base strings list gmap.
From Stdlib Require Import Strings.Byte.

Local Open Scope string_scope.
Local Open Scope list_scope.
Local Open Scope nat_scope.

(** ** Data model *)

Abbreviation bytes := (list byte).

#[global] Instance byte_eq_decision : EqDecision byte := Byte.byte_eq_dec.

(** A path is the list of its components; [os.path.join directory item]
    appends one component. *)
Abbreviation path := (list string).

Definition os_path_join (directory : path) (item : string) : path :=
  directory ++ [item].

(** The text of a path, as an f-string prints it. *)
Definition path_str (p : path) : string := String.concat "/" p.

(** What a path refers to on disk.  A regular file carries its permission
    bits and its content; a directory carries whether it may be listed and
    the names [os.listdir] reports, in the order it reports them; an entry
    that is neither and cannot be opened, such as a socket, is [Special].
    A name that is listed while its path is not in the map is an entry
    that vanished, or a link to nothing.  Each path names an entry of its
    own: the file system has no symbolic or hard links to entries that
    exist.  A file is writable when opening it for writing and writing to
    it both succeed. *)
Inductive entry : Type :=
| File (readable writable : bool) (content : bytes)
| Dir (listable : bool) (names : list string)
| Special.

Abbreviation filesystem := (gmap path entry).

(** The exceptions the modelled calls raise.  The first five are [OSError]
    or subclasses of it, the fifth being the plain [OSError] that opening a
    socket gives; [RecursionError], which the interpreter raises when a
    call finds no room on its stack, is a subclass of [Exception] only. *)
Inductive exn : Type :=
| FileNotFoundError (filename : path)
| PermissionError (filename : path)
| IsADirectoryError (filename : path)
| NotADirectoryError (filename : path)
| NoSuchDeviceError (filename : path)
| RecursionError
| OtherException (msg : string).

Definition isinstance_OSError (e : exn) : bool :=
  match e with
  | RecursionError | OtherException _ => false
  | _ => true
  end.

(** [str(e)], as the f-strings of the handlers print it, for file names
    that [repr] prints between single quotes unchanged. *)
Definition exn_str (e : exn) : string :=
  match e with
  | FileNotFoundError p =>
      "[Errno 2] No such file or directory: '" +:+ path_str p +:+ "'"
  | PermissionError p =>
      "[Errno 13] Permission denied: '" +:+ path_str p +:+ "'"
  | IsADirectoryError p =>
      "[Errno 21] Is a directory: '" +:+ path_str p +:+ "'"
  | NotADirectoryError p =>
      "[Errno 20] Not a directory: '" +:+ path_str p +:+ "'"
  | NoSuchDeviceError p =>
      "[Errno 6] No such device or address: '" +:+ path_str p +:+ "'"
  | RecursionError => "maximum recursion depth exceeded"
  | OtherException msg => msg
  end.

Inductive level : Type := DEBUG | INFO | ERROR.

Inductive open_mode : Type := RB | WB.

(** What a run does to the outside world, in order. *)
Inductive event : Type :=
| EvListdir (p : path)
| EvIsfile (p : path)
| EvIsdir (p : path)
| EvOpen (p : path) (mode : open_mode)
| EvWrite (p : path) (data : bytes)
| EvLog (lvl : level) (msg : string).

#[global] Instance level_eq_decision : EqDecision level.
Proof. solve_decision. Defined.
#[global] Instance open_mode_eq_decision : EqDecision open_mode.
Proof. solve_decision. Defined.
#[global] Instance event_eq_decision : EqDecision event.
Proof. solve_decision. Defined.

(** An event that opens a file for writing or writes to it. *)
Definition is_write_event (ev : event) : bool :=
  match ev with
  | EvOpen _ WB | EvWrite _ _ => true
  | _ => false
  end.

(** ** The BOM table (lines 11-15) and the CLI's choices (line 109) *)

Definition BOM_UTF8 : bytes := [xef; xbb; xbf].
Definition BOM_UTF16_LE : bytes := [xff; xfe].
Definition BOM_UTF16_BE : bytes := [xfe; xff].

Definition BOM_ENCODINGS : gmap string bytes :=
  <["utf-8" := BOM_UTF8]>
    (<["utf-16le" := BOM_UTF16_LE]>
       (<["utf-16be" := BOM_UTF16_BE]> ∅)).

Definition encoding_choices : list string := ["utf-8"; "utf-16le"; "utf-16be"].

(** ** Python built-ins on [bytes] *)

(** [content.startswith(prefix)] *)
Fixpoint startswith (content pre : bytes) {struct pre} : bool :=
  match pre, content with
  | [], _ => true
  | _ :: _, [] => false
  | b :: pre', c :: content' =>
      if decide (b = c) then startswith content' pre' else false
  end.

(** [content[n:]] *)
Definition slice_from (n : nat) (content : bytes) : bytes := drop n content.

(** ** The monad of the program *)

Inductive result (A : Type) : Type :=
| Ok (a : A)
| Raise (e : exn).
Arguments Ok {A} a.
Arguments Raise {A} e.

(** A computation takes the file system and gives its result, the file
    system it leaves, and the events it emitted. *)
Definition M (A : Type) : Type :=
  filesystem → result A * filesystem * list event.

#[global] Instance M_ret : MRet M := λ A a fs, (Ok a, fs, []).

#[global] Instance M_bind : MBind M := λ A B k m fs,
  match m fs with
  | (Ok a, fs', t) =>
      match k a fs' with
      | (r, fs'', t') => (r, fs'', t ++ t')
      end
  | (Raise e, fs', t) => (Raise e, fs', t)
  end.

(** [try: body except Exception as e: handler] *)
Definition try_except {A} (body : M A) (handler : exn → M A) : M A := λ fs,
  match body fs with
  | (Ok a, fs', t) => (Ok a, fs', t)
  | (Raise e, fs', t) =>
      match handler e fs' with
      | (r, fs'', t') => (r, fs'', t ++ t')
      end
  end.

(** *** System calls *)

(** What [os.listdir directory] gives. *)
Definition listdir_result (fs : filesystem) (directory : path)
  : result (list string) :=
  match fs !! directory with
  | Some (Dir true names) => Ok names
  | Some (Dir false _) => Raise (PermissionError directory)
  | Some _ => Raise (NotADirectoryError directory)
  | None => Raise (FileNotFoundError directory)
  end.

Definition os_listdir (directory : path) : M (list string) := λ fs,
  (listdir_result fs directory, fs, [EvListdir directory]).

Definition is_file (fs : filesystem) (p : path) : bool :=
  match fs !! p with Some (File _ _ _) => true | _ => false end.

Definition is_dir (fs : filesystem) (p : path) : bool :=
  match fs !! p with Some (Dir _ _) => true | _ => false end.

Definition os_path_isfile (p : path) : M bool := λ fs,
  (Ok (is_file fs p), fs, [EvIsfile p]).

Definition os_path_isdir (p : path) : M bool := λ fs,
  (Ok (is_dir fs p), fs, [EvIsdir p]).

(** What opening [file_path] for reading and reading it whole gives. *)
Definition read_result (fs : filesystem) (file_path : path) : result bytes :=
  match fs !! file_path with
  | Some (File true _ content) => Ok content
  | Some (File false _ _) => Raise (PermissionError file_path)
  | Some (Dir _ _) => Raise (IsADirectoryError file_path)
  | Some Special => Raise (NoSuchDeviceError file_path)
  | None => Raise (FileNotFoundError file_path)
  end.

(** [with open(file_path, 'rb') as f: content = f.read()] *)
Definition open_rb_read (file_path : path) : M bytes := λ fs,
  (read_result fs file_path, fs, [EvOpen file_path RB]).

(** [with open(file_path, 'wb') as f: f.write(new_content)].  Opening
    truncates the file and the write follows at once; a file being
    writable when both succeed, the two are one step here, and a write
    that fails after the truncation is outside the embedding.  The program
    writes only to a path it has just read, so the last branch (a path that
    does not exist) is never taken by it. *)
Definition open_wb_write (file_path : path) (new_content : bytes) : M unit :=
  λ fs,
  match fs !! file_path with
  | Some (File r true _) =>
      (Ok (), <[file_path := File r true new_content]> fs,
       [EvOpen file_path WB; EvWrite file_path new_content])
  | Some (File _ false _) =>
      (Raise (PermissionError file_path), fs, [EvOpen file_path WB])
  | Some (Dir _ _) =>
      (Raise (IsADirectoryError file_path), fs, [EvOpen file_path WB])
  | Some Special =>
      (Raise (NoSuchDeviceError file_path), fs, [EvOpen file_path WB])
  | None =>
      (Raise (FileNotFoundError file_path), fs, [EvOpen file_path WB])
  end.

(** *** [logging] *)

Definition logging_log (lvl : level) (msg : string) : M unit := λ fs,
  (Ok (), fs, [EvLog lvl msg]).

Definition logging_debug := logging_log DEBUG.
Definition logging_info := logging_log INFO.
Definition logging_error := logging_log ERROR.

(** ** [remove_bom] (lines 18-51)

    Python's [True], [False] and [None] are [Some true], [Some false] and
    [None]. *)

Definition msg_unsupported (encoding : string) : string :=
  "Unsupported encoding: " +:+ encoding.
Definition msg_bom_found (file_path : path) (encoding : string) : string :=
  "BOM found in " +:+ path_str file_path +:+ " (" +:+ encoding +:+ ")".
Definition msg_bom_removed (file_path : path) : string :=
  "BOM removed from " +:+ path_str file_path.
Definition msg_no_bom (file_path : path) (encoding : string) : string :=
  "No BOM found in " +:+ path_str file_path +:+ " (" +:+ encoding +:+ ")".
Definition msg_error_processing (file_path : path) (e : exn) : string :=
  "Error processing " +:+ path_str file_path +:+ ": " +:+ exn_str e.

Definition remove_bom (file_path : path) (encoding : string)
  : M (option bool) :=
  try_except
    (content ← open_rb_read file_path;
     match BOM_ENCODINGS !! encoding with
     | None =>
         logging_error (msg_unsupported encoding);;
         mret None
     | Some bom =>
         if startswith content bom then
           logging_info (msg_bom_found file_path encoding);;
           let new_content := slice_from (length bom) content in
           open_wb_write file_path new_content;;
           logging_info (msg_bom_removed file_path);;
           mret (Some true)
         else
           logging_debug (msg_no_bom file_path encoding);;
           mret (Some false)
     end)
    (λ e,
       logging_error (msg_error_processing file_path e);;
       mret None).

(** ** [process_file] (lines 54-69) *)

Definition msg_failed (file_path : path) : string :=
  "Failed to process " +:+ path_str file_path +:+ " (see previous errors).".
Definition msg_unexpected_file (file_path : path) (e : exn) : string :=
  "Unexpected error processing " +:+ path_str file_path +:+ ": "
  +:+ exn_str e.

Definition process_file (file_path : path) (encoding : string) : M unit :=
  try_except
    (result ← remove_bom file_path encoding;
     match result with
     | None => logging_error (msg_failed file_path)
     | Some _ => mret ()
     end)
    (λ e, logging_error (msg_unexpected_file file_path e)).

(** ** [process_directory] (lines 72-95)

    The function calls itself on subdirectories (line 88), and the
    interpreter bounds the nesting of calls.  The embedding takes [fuel],
    the number of nested calls of [process_directory] the stack has room
    for, the outermost included.  A descent that finds no room raises
    [RecursionError] in the frame that attempts it, inside the [try] of
    line 81, so the handler of line 94 catches it.  The outermost call is
    made by [main] with room for one call at least; with room for none the
    embedding gives no result ([None]). *)

Definition MF (A : Type) : Type :=
  filesystem → option (result A * filesystem * list event).

#[global] Instance MF_ret : MRet MF := λ A a fs, Some (Ok a, fs, []).

#[global] Instance MF_bind : MBind MF := λ A B k m fs,
  match m fs with
  | Some (Ok a, fs', t) =>
      match k a fs' with
      | Some (r, fs'', t') => Some (r, fs'', t ++ t')
      | None => None
      end
  | Some (Raise e, fs', t) => Some (Raise e, fs', t)
  | None => None
  end.

Definition lift {A} (m : M A) : MF A := λ fs, Some (m fs).

(** A call made with room on the stack for [room] more nested calls: with
    none the interpreter raises [RecursionError] instead of entering the
    function.  The stack a call of [process_directory] needs, with the
    calls its body makes in turn, is charged to that call: in the
    interpreter the error may surface a few frames deeper, and a handler
    left without room to log passes it to the frame above, but either way
    a directory whose descent met it abandons the rest of its loop. *)
Definition call {A} (room : nat) (f : MF A) : MF A :=
  match room with
  | 0 => λ fs, Some (Raise RecursionError, fs, [])
  | S _ => f
  end.

Definition try_except_F {A} (body : MF A) (handler : exn → M A) : MF A :=
  λ fs,
  match body fs with
  | Some (Ok a, fs', t) => Some (Ok a, fs', t)
  | Some (Raise e, fs', t) =>
      match handler e fs' with
      | (r, fs'', t') => Some (r, fs'', t ++ t')
      end
  | None => None
  end.

(** [for item in items: body item] *)
Fixpoint for_each {A} (items : list A) (body : A → MF unit) : MF unit :=
  match items with
  | [] => mret ()
  | item :: rest => body item;; for_each rest body
  end.

Definition msg_skipping (item_path : path) : string :=
  "Skipping subdirectory " +:+ path_str item_path
  +:+ " (recursive is False).".
Definition msg_error_accessing (directory : path) (e : exn) : string :=
  "Error accessing directory " +:+ path_str directory +:+ ": "
  +:+ exn_str e.
Definition msg_unexpected_directory (directory : path) (e : exn) : string :=
  "Unexpected error processing directory " +:+ path_str directory +:+ ": "
  +:+ exn_str e.

(** The two handlers of lines 92-95: [except OSError] first, then
    [except Exception]. *)
Definition directory_handler (directory : path) (e : exn) : M unit :=
  if isinstance_OSError e
  then logging_error (msg_error_accessing directory e)
  else logging_error (msg_unexpected_directory directory e).

Fixpoint process_directory (fuel : nat) (directory : path)
    (encoding : string) (recursive : bool) {struct fuel} : MF unit :=
  match fuel with
  | 0 => λ _, None
  | S fuel' =>
      try_except_F
        (items ← lift (os_listdir directory);
         for_each items (λ item,
           let item_path := os_path_join directory item in
           is_file ← lift (os_path_isfile item_path);
           if is_file : bool then
             lift (process_file item_path encoding)
           else
             is_dir ← lift (os_path_isdir item_path);
             if is_dir && recursive then
               call fuel'
                 (process_directory fuel' item_path encoding recursive)
             else
               is_dir' ← lift (os_path_isdir item_path);
               if is_dir' && negb recursive then
                 lift (logging_info (msg_skipping item_path))
               else
                 mret ()))
        (directory_handler directory)
  end.

(** The body of the loop of lines 82-90, with the recursive call as a
    parameter; [process_directory_S] below shows that the function is the
    loop over this body. *)
Definition loop_body (walk : path → MF unit) (directory : path)
    (encoding : string) (recursive : bool) (item : string) : MF unit :=
  let item_path := os_path_join directory item in
  is_file ← lift (os_path_isfile item_path);
  if is_file : bool then
    lift (process_file item_path encoding)
  else
    is_dir ← lift (os_path_isdir item_path);
    if is_dir && recursive then
      walk item_path
    else
      is_dir' ← lift (os_path_isdir item_path);
      if is_dir' && negb recursive then
        lift (logging_info (msg_skipping item_path))
      else
        mret ().

(** ** The runs of the loop of lines 82-90, as a relation

    [loop_run encoding recursive directory items fs fs' t]: iterating over
    [items] in [directory] from [fs], with room on the stack for every
    descent, ends in [fs'] having emitted [t].  One rule per branch of the
    loop body; descending into a subdirectory runs the loop of that
    subdirectory, or logs the error when it cannot be listed.
    [process_directory] is shown below to run exactly so when the stack has
    room for the nesting of the tree, which makes this relation the
    induction principle of such walks. *)
Inductive loop_run (encoding : string) (recursive : bool)
  : path → list string → filesystem → filesystem → list event → Prop :=
| loop_done directory fs :
    loop_run encoding recursive directory [] fs fs []
| loop_file directory item rest fs fs' t :
    is_file fs (os_path_join directory item) = true →
    loop_run encoding recursive directory rest
      (process_file (os_path_join directory item) encoding fs).1.2 fs' t →
    loop_run encoding recursive directory (item :: rest) fs fs'
      (EvIsfile (os_path_join directory item)
       :: (process_file (os_path_join directory item) encoding fs).2 ++ t)
| loop_descend directory item rest fs names fs1 t1 fs' t :
    is_file fs (os_path_join directory item) = false →
    is_dir fs (os_path_join directory item) = true →
    recursive = true →
    listdir_result fs (os_path_join directory item) = Ok names →
    loop_run encoding recursive (os_path_join directory item) names
      fs fs1 t1 →
    loop_run encoding recursive directory rest fs1 fs' t →
    loop_run encoding recursive directory (item :: rest) fs fs'
      (EvIsfile (os_path_join directory item)
       :: EvIsdir (os_path_join directory item)
       :: EvListdir (os_path_join directory item) :: t1 ++ t)
| loop_descend_fails directory item rest fs e fs' t :
    is_file fs (os_path_join directory item) = false →
    is_dir fs (os_path_join directory item) = true →
    recursive = true →
    listdir_result fs (os_path_join directory item) = Raise e →
    loop_run encoding recursive directory rest fs fs' t →
    loop_run encoding recursive directory (item :: rest) fs fs'
      (EvIsfile (os_path_join directory item)
       :: EvIsdir (os_path_join directory item)
       :: EvListdir (os_path_join directory item)
       :: EvLog ERROR
            (msg_error_accessing (os_path_join directory item) e) :: t)
| loop_skip directory item rest fs fs' t :
    is_file fs (os_path_join directory item) = false →
    is_dir fs (os_path_join directory item) = true →
    recursive = false →
    loop_run encoding recursive directory rest fs fs' t →
    loop_run encoding recursive directory (item :: rest) fs fs'
      (EvIsfile (os_path_join directory item)
       :: EvIsdir (os_path_join directory item)
       :: EvIsdir (os_path_join directory item)
       :: EvLog INFO (msg_skipping (os_path_join directory item)) :: t)
| loop_other directory item rest fs fs' t :
    is_file fs (os_path_join directory item) = false →
    is_dir fs (os_path_join directory item) = false →
    loop_run encoding recursive directory rest fs fs' t →
    loop_run encoding recursive directory (item :: rest) fs fs'
      (EvIsfile (os_path_join directory item)
       :: EvIsdir (os_path_join directory item)
       :: EvIsdir (os_path_join directory item) :: t).

(** A whole call of [process_directory]: the listing fails and the error
    is logged, or the loop runs over the names listed. *)
Definition walk_run (encoding : string) (recursive : bool)
    (directory : path) (fs fs' : filesystem) (t : list event) : Prop :=
  match listdir_result fs directory with
  | Ok names =>
      ∃ t', loop_run encoding recursive directory names fs fs' t'
            ∧ t = EvListdir directory :: t'
  | Raise e =>
      fs' = fs
      ∧ t = [EvListdir directory;
             EvLog ERROR (msg_error_accessing directory e)]
  end.

(** ** Measures and projections used in the statements *)

(** The path an event is about; a log line is about none. *)
Definition event_path (ev : event) : option path :=
  match ev with
  | EvListdir p | EvIsfile p | EvIsdir p | EvOpen p _ | EvWrite p _ => Some p
  | EvLog _ _ => None
  end.

(** The paths the walk examined: one per turn of the loop of line 82, whose
    first action is [os.path.isfile item_path]. *)
Definition visited (t : list event) : list path :=
  omap (λ ev, match ev with EvIsfile p => Some p | _ => None end) t.

(** The error that processing the file at [p] meets, as the line that
    reports it: the file cannot be read, or it can and the encoding is not
    in the table, or its content starts with the signature and it cannot
    be written. *)
Definition file_failure (encoding : string) (fs : filesystem) (p : path)
  : option string :=
  match fs !! p with
  | Some (File false _ _) =>
      Some (msg_error_processing p (PermissionError p))
  | Some (File true writable content) =>
      match BOM_ENCODINGS !! encoding with
      | None => Some (msg_unsupported encoding)
      | Some bom =>
          if startswith content bom && negb writable
          then Some (msg_error_processing p (PermissionError p))
          else None
      end
  | _ => None
  end.

(** How a run whose events are [t] dealt with the entry at [p]: it was
    examined; if it is a regular file it was opened for reading, and the
    error its processing meets, if any, was logged, followed by the line of
    [process_file]; if it is a directory and the walk is recursive it was
    listed. *)
Definition entry_processed (encoding : string) (recursive : bool)
    (fs : filesystem) (t : list event) (p : path) : Prop :=
  EvIsfile p ∈ t
  ∧ if is_file fs p then
      EvOpen p RB ∈ t
      ∧ ∀ line, file_failure encoding fs p = Some line →
                EvLog ERROR line ∈ t ∧ EvLog ERROR (msg_failed p) ∈ t
    else if is_dir fs p && recursive then EvListdir p ∈ t
    else True.

(** How a run whose events are [t] dealt with directory [q]: when [q] can
    be listed every name it lists was processed, and when it cannot the
    error was logged. *)
Definition directory_handled (encoding : string) (recursive : bool)
    (fs : filesystem) (t : list event) (q : path) : Prop :=
  match listdir_result fs q with
  | Ok names =>
      ∀ name, name ∈ names →
              entry_processed encoding recursive fs t (os_path_join q name)
  | Raise e => EvLog ERROR (msg_error_accessing q e) ∈ t
  end.

(** The paths below [d] in depth-first pre-order: each name [d] lists, in
    the order listed, followed at once, when it is a directory and the walk
    is recursive, by the paths below it. *)
Definition preorder_item (below : path → list path) (fs : filesystem)
    (recursive : bool) (d : path) (name : string) : list path :=
  os_path_join d name
  :: if negb (is_file fs (os_path_join d name))
        && is_dir fs (os_path_join d name) && recursive
     then below (os_path_join d name)
     else [].

Fixpoint preorder (fuel : nat) (fs : filesystem) (recursive : bool)
    (d : path) : list path :=
  match fuel with
  | 0 => []
  | S n =>
      match listdir_result fs d with
      | Ok names =>
          flat_map (preorder_item (preorder n fs recursive) fs recursive d)
            names
      | Raise _ => []
      end
  end.

(** The length of the longest path of the file system. *)
Definition max_depth (fs : filesystem) : nat :=
  max_list (length <$> (map_to_list fs).*1).

(** Room on the stack that suffices to walk [directory]: one call for each
    level of nesting below it. *)
Definition walk_fuel (fs : filesystem) (directory : path) : nat :=
  S (max_depth fs - length directory).

(** What an entry is apart from a file's content, and file systems that
    differ in the content of files only. *)
Definition shape (e : entry) : entry :=
  match e with
  | File r w _ => File r w []
  | e => e
  end.

Definition same_shape (fs fs' : filesystem) : Prop :=
  ∀ q, shape <$> (fs !! q) = shape <$> (fs' !! q).

(** File systems that differ in the content of readable, writable files
    only. *)
Definition same_locked (fs fs' : filesystem) : Prop :=
  ∀ q, fs !! q = fs' !! q
       ∨ ∃ B B', fs !! q = Some (File true true B)
                 ∧ fs' !! q = Some (File true true B').

(** Every directory of the file system lies at depth [N] at most. *)
Definition depth_bounded (N : nat) (fs : filesystem) : Prop :=
  ∀ (q : path) l names,
    fs !! q = Some (Dir l names) → (length q ≤ N)%nat.

(** No directory lists a name twice. *)
Definition listings_distinct (fs : filesystem) : Prop :=
  ∀ q l names, fs !! q = Some (Dir l names) → NoDup names.

(** ** Concrete file systems used in the examples below *)

(** One file holding the BOM of UTF-8 followed by "Hello". *)
Definition hello_content : bytes :=
  [xef; xbb; xbf; x48; x65; x6c; x6c; x6f].
Definition hello_fs : filesystem :=
  {[ ["hello.txt"] := File true true hello_content ]}.

(** One file holding nothing but the BOM of UTF-8. *)
Definition bom_only_fs : filesystem :=
  {[ ["bom.txt"] := File true true BOM_UTF8 ]}.

(** One file that starts with the BOM of UTF-8 twice. *)
Definition double_bom_fs : filesystem :=
  {[ ["twice.txt"] := File true true (BOM_UTF8 ++ BOM_UTF8 ++ [x41]) ]}.

(** One plain file without a BOM, and one that cannot be read. *)
Definition plain_fs : filesystem :=
  {[ ["plain.txt"] := File true true [x48; x69] ]}.
Definition locked_fs : filesystem :=
  {[ ["locked.txt"] := File false true hello_content ]}.

(** A directory [D] with a BOM-prefixed file [f1] and a subdirectory [sub]
    holding a BOM-prefixed file [f2]. *)
Definition tree_fs : filesystem :=
  <[ ["D"] := Dir true ["f1"; "sub"] ]>
  (<[ ["D"; "f1"] := File true true (BOM_UTF8 ++ [x48]) ]>
  (<[ ["D"; "sub"] := Dir true ["f2"] ]>
  (<[ ["D"; "sub"; "f2"] := File true true (BOM_UTF8 ++ [x49]) ]> ∅))).

(** The same directory with, first in its listing, a subdirectory that
    cannot be listed and a file that cannot be read. *)
Definition faulty_fs : filesystem :=
  <[ ["D"] := Dir true ["closed"; "locked"; "f1"] ]>
  (<[ ["D"; "closed"] := Dir false ["x"] ]>
  (<[ ["D"; "locked"] := File false true hello_content ]>
  (<[ ["D"; "f1"] := File true true (BOM_UTF8 ++ [x48]) ]> ∅))).

(** A chain of directories nested [n] deep below [d]: each lists a
    subdirectory [sub] and then a file [f.txt] that holds nothing; the
    innermost lists the file only. *)
Fixpoint chain_fs (n : nat) (d : path) : filesystem :=
  match n with
  | 0 =>
      <[ d := Dir true ["f.txt"] ]>
      (<[ os_path_join d "f.txt" := File true true [] ]> ∅)
  | S m =>
      <[ d := Dir true ["sub"; "f.txt"] ]>
      (<[ os_path_join d "f.txt" := File true true [] ]>
      (chain_fs m (os_path_join d "sub")))
  end.

(** The directory [k] levels down the chain. *)
Definition chain_dir (d : path) (k : nat) : path := d ++ replicate k "sub".

(** ** [main] (lines 117-139)

    [main] works on the attributes of the value [parser.parse_args()]
    returns; [setup_argparse] (lines 98-114) declares them.  That value is
    the input of the embedding.  The process also holds the level of the
    root logger, which line 8 sets to [INFO] and [main] may lower. *)
Record Namespace : Type := {
  args_file : option path;
  args_directory : option path;
  args_encoding : string;
  args_recursive : bool;
  args_verbose : bool
}.

Record process : Type := {
  logger_level : level;
  files : filesystem
}.

(** [logging.basicConfig(level=logging.INFO, ...)] (line 8) *)
Definition initial_process (fs : filesystem) : process :=
  {| logger_level := INFO; files := fs |}.

(** The truth value Python gives [args.file] and [args.directory]: [None]
    and the empty string, which is the empty path, are false. *)
Definition truthy (o : option path) : bool :=
  match o with
  | Some (_ :: _) => true
  | _ => false
  end.

Definition msg_verbose : string := "Verbose logging enabled.".
Definition msg_file_not_found (file_path : path) : string :=
  "File not found: " +:+ path_str file_path.
Definition msg_directory_not_found (directory_path : path) : string :=
  "Directory not found: " +:+ path_str directory_path.

(** The statements of [main] after the arguments are parsed, lines
    124-139, as a computation on the file system; [fuel] is the room on the
    stack for nested calls of [process_directory]. *)
Definition main_body (fuel : nat) (args : Namespace) : MF unit :=
  (if args_verbose args
   then lift (logging_debug msg_verbose)
   else mret ());;
  if truthy (args_file args) then
    let file_path := default [] (args_file args) in
    is_file ← lift (os_path_isfile file_path);
    if negb is_file then
      lift (logging_error (msg_file_not_found file_path))
    else
      lift (process_file file_path (args_encoding args))
  else if truthy (args_directory args) then
    let directory_path := default [] (args_directory args) in
    is_dir ← lift (os_path_isdir directory_path);
    if negb is_dir then
      lift (logging_error (msg_directory_not_found directory_path))
    else
      process_directory fuel directory_path (args_encoding args)
        (args_recursive args)
  else
    mret ().

(** [main]: line 125 sets the level of the root logger before anything is
    logged, then the body runs. *)
Definition main (fuel : nat) (args : Namespace) (pr : process)
  : option (result unit * process * list event) :=
  let lvl := if args_verbose args then DEBUG else logger_level pr in
  match main_body fuel args (files pr) with
  | Some (r, fs', t) => Some (r, {| logger_level := lvl; files := fs' |}, t)
  | None => None
  end.

(** The numeric values of the levels of [logging]. *)
Definition level_num (l : level) : nat :=
  match l with
  | DEBUG => 10
  | INFO => 20
  | ERROR => 40
  end.

(** The records a logger at level [lvl] lets through, among the logging
    calls of [t]: those whose level is at least [lvl]. *)
Definition displayed (lvl : level) (t : list event) : list (level * string) :=
  omap (λ ev, match ev with
              | EvLog l msg =>
                  if level_num lvl <=? level_num l then Some (l, msg)
                  else None
              | _ => None
              end) t.

(** The lines the program can log from [process_file] and
    [process_directory] when run with [encoding], with room on the stack
    for every descent. *)
Definition log_vocabulary (encoding : string) (lvl : level) (msg : string)
  : Prop :=
  (lvl = ERROR ∧ msg = msg_unsupported encoding
               ∧ BOM_ENCODINGS !! encoding = None)
  ∨ (lvl = INFO ∧ ∃ p, msg = msg_bom_found p encoding)
  ∨ (lvl = INFO ∧ ∃ p, msg = msg_bom_removed p)
  ∨ (lvl = DEBUG ∧ ∃ p, msg = msg_no_bom p encoding)
  ∨ (lvl = ERROR ∧ ∃ p e, msg = msg_error_processing p e)
  ∨ (lvl = ERROR ∧ ∃ p, msg = msg_failed p)
  ∨ (lvl = INFO ∧ ∃ p, msg = msg_skipping p)
  ∨ (lvl = ERROR ∧ ∃ p e, msg = msg_error_accessing p e).

(** The lines a walk can log whatever the room on the stack: those, and
    the line of the handler of line 94 for a [RecursionError]. *)
Definition walk_vocabulary (encoding : string) (lvl : level) (msg : string)
  : Prop :=
  log_vocabulary encoding lvl msg
  ∨ (lvl = ERROR ∧ ∃ p, msg = msg_unexpected_directory p RecursionError).

(** What holds of every call made during a walk: it returns normally or
    raises [RecursionError], leaves a file system of the same shape, and
    logs lines of the vocabulary only. *)
Definition walk_invariant (encoding : string) (fs : filesystem)
    (r : result unit) (fs' : filesystem) (t : list event) : Prop :=
  (r = Ok () ∨ r = Raise RecursionError)
  ∧ same_shape fs fs'
  ∧ ∀ lvl msg, EvLog lvl msg ∈ t → walk_vocabulary encoding lvl msg.

(** Every permission bit of the file system is set. *)
Definition all_accessible (fs : filesystem) : Prop :=
  ∀ (q : path) e, fs !! q = Some e →
    match e with
    | File r w _ => r = true ∧ w = true
    | Dir l _ => l = true
    | Special => True
    end.

(** No file starts with the signature twice. *)
Definition no_double_bom (sig : bytes) (fs : filesystem) : Prop :=
  ∀ (q : path) r w B,
    fs !! q = Some (File r w B) → ¬ (sig ++ sig) `prefix_of` B.

(** A file that starts with the BOM of UTF-16 (little endian). *)
Definition utf16_fs : filesystem :=
  {[ ["wide.txt"] := File true true (BOM_UTF16_LE ++ [x48; x00]) ]}.

(** The entry [remove_bom] leaves at [file_path], as a function of the
    entry it finds there (lines 30-43): only a readable, writable file
    whose content starts with the signature of the encoding is changed. *)
Definition strip_entry (encoding : string) (o : option entry)
  : option entry :=
  match o with
  | Some (File true true content) =>
      match BOM_ENCODINGS !! encoding with
      | Some bom =>
          if startswith content bom
          then Some (File true true (slice_from (length bom) content))
          else o
      | None => o
      end
  | _ => o
  end.

(** The event of line 126, when [--verbose] is given. *)
Definition verbose_line (args : Namespace) : list event :=
  if args_verbose args then [EvLog DEBUG msg_verbose] else [].

(** The level line 125 leaves the root logger at. *)
Definition level_after (args : Namespace) (pr : process) : level :=
  if args_verbose args then DEBUG else logger_level pr.

(** Arguments as the command lines [-f hello.txt], [-f plain.txt -v],
    [-f missing.txt], [-f ""] and [-d D -r] give them. *)
Definition args_hello : Namespace :=
  {| args_file := Some ["hello.txt"]; args_directory := None;
     args_encoding := "utf-8"; args_recursive := false;
     args_verbose := false |}.
Definition args_plain_verbose : Namespace :=
  {| args_file := Some ["plain.txt"]; args_directory := None;
     args_encoding := "utf-8"; args_recursive := false;
     args_verbose := true |}.
Definition args_missing : Namespace :=
  {| args_file := Some ["missing.txt"]; args_directory := None;
     args_encoding := "utf-8"; args_recursive := false;
     args_verbose := false |}.
Definition args_empty_file : Namespace :=
  {| args_file := Some []; args_directory := None;
     args_encoding := "utf-8"; args_recursive := false;
     args_verbose := false |}.
Definition args_tree : Namespace :=
  {| args_file := None; args_directory := Some ["D"];
     args_encoding := "utf-8"; args_recursive := true;
     args_verbose := false |}.

(** * Properties *)

(** ** The built-ins and the BOM table *)

Lemma startswith_prefix (content pre : bytes) :
  startswith content pre = true ↔ pre `prefix_of` content.
Proof.
  revert content. induction pre as [|b pre IH]; intros content; simpl.
  - split; [intros _; apply prefix_nil | done].
  - destruct content as [|c content].
    + split; [done | intros [k Hk]; discriminate Hk].
    + case_decide as Hbc.
      * subst c. rewrite IH. split.
        -- apply prefix_cons.
        -- apply prefix_cons_inv_2.
      * split; [done |]. intros Hp. apply prefix_cons_inv_1 in Hp. congruence.
Qed.

Lemma startswith_app (sig rest : bytes) : startswith (sig ++ rest) sig = true.
Proof. apply startswith_prefix. by apply prefix_app_r. Qed.

Lemma startswith_false (content pre : bytes) :
  startswith content pre = false ↔ ¬ pre `prefix_of` content.
Proof.
  rewrite <- startswith_prefix. destruct (startswith content pre); naive_solver.
Qed.

Lemma prefix_slice_from (sig B : bytes) :
  sig `prefix_of` B → B = sig ++ slice_from (length sig) B.
Proof.
  intros [k ->]. unfold slice_from. by rewrite drop_app_length.
Qed.

Lemma prefix_too_short (sig B : bytes) :
  length B < length sig → ¬ sig `prefix_of` B.
Proof. intros Hlt Hp. apply prefix_length in Hp. lia. Qed.

Lemma BOM_ENCODINGS_lookup (encoding : string) (sig : bytes) :
  BOM_ENCODINGS !! encoding = Some sig ↔
    (encoding = "utf-8" ∧ sig = BOM_UTF8)
    ∨ (encoding = "utf-16le" ∧ sig = BOM_UTF16_LE)
    ∨ (encoding = "utf-16be" ∧ sig = BOM_UTF16_BE).
Proof.
  unfold BOM_ENCODINGS. rewrite !lookup_insert, lookup_empty.
  repeat (destruct (decide (_ = encoding)) as [<-|?]; [intuition congruence |]).
  intuition congruence.
Qed.

Lemma BOM_ENCODINGS_supported (encoding : string) :
  is_Some (BOM_ENCODINGS !! encoding) ↔ encoding ∈ encoding_choices.
Proof.
  unfold encoding_choices. rewrite !elem_of_cons, elem_of_nil. split.
  - intros [sig Hs]. apply BOM_ENCODINGS_lookup in Hs. tauto.
  - intros [->|[->|[->|[]]]]; by eexists.
Qed.

Lemma BOM_ENCODINGS_unsupported (encoding : string) :
  encoding ∉ encoding_choices → BOM_ENCODINGS !! encoding = None.
Proof.
  intros Hn. apply eq_None_not_Some. by rewrite BOM_ENCODINGS_supported.
Qed.

Lemma signature_length (encoding : string) (sig : bytes) :
  BOM_ENCODINGS !! encoding = Some sig →
  length sig = if decide (encoding = "utf-8") then 3 else 2.
Proof.
  intros H. apply BOM_ENCODINGS_lookup in H.
  destruct H as [[-> ->]|[[-> ->]|[-> ->]]]; reflexivity.
Qed.

Lemma signature_nonempty (encoding : string) (sig : bytes) :
  BOM_ENCODINGS !! encoding = Some sig → 0 < length sig.
Proof. intros H. rewrite (signature_length _ _ H). case_decide; lia. Qed.

(** ** [remove_bom], one equation per path through its body *)

Ltac unfold_monad :=
  unfold try_except, mbind, M_bind, mret, M_ret, open_rb_read,
    open_wb_write, logging_error, logging_info, logging_debug, logging_log.

Lemma read_result_Ok (fs : filesystem) (file_path : path) (B : bytes) :
  read_result fs file_path = Ok B ↔
  ∃ wr, fs !! file_path = Some (File true wr B).
Proof.
  unfold read_result. split.
  - destruct (fs !! file_path) as [[[] wr c| |]|]; try discriminate.
    intros [= ->]. by exists wr.
  - by intros [wr ->].
Qed.

Lemma remove_bom_read_fails (file_path : path) (encoding : string)
    (fs : filesystem) (e : exn) :
  read_result fs file_path = Raise e →
  remove_bom file_path encoding fs =
    (Ok None, fs,
     [EvOpen file_path RB; EvLog ERROR (msg_error_processing file_path e)]).
Proof. intros H. unfold remove_bom. unfold_monad. by rewrite H. Qed.

Lemma remove_bom_unsupported (file_path : path) (encoding : string)
    (fs : filesystem) (B : bytes) :
  read_result fs file_path = Ok B →
  BOM_ENCODINGS !! encoding = None →
  remove_bom file_path encoding fs =
    (Ok None, fs,
     [EvOpen file_path RB; EvLog ERROR (msg_unsupported encoding)]).
Proof. intros H He. unfold remove_bom. unfold_monad. by rewrite H, He. Qed.

Lemma remove_bom_no_bom (file_path : path) (encoding : string)
    (fs : filesystem) (B sig : bytes) :
  read_result fs file_path = Ok B →
  BOM_ENCODINGS !! encoding = Some sig →
  startswith B sig = false →
  remove_bom file_path encoding fs =
    (Ok (Some false), fs,
     [EvOpen file_path RB; EvLog DEBUG (msg_no_bom file_path encoding)]).
Proof.
  intros H He Hs. unfold remove_bom. unfold_monad. by rewrite H, He, Hs.
Qed.

Lemma remove_bom_stripped (file_path : path) (encoding : string)
    (fs : filesystem) (B sig : bytes) :
  fs !! file_path = Some (File true true B) →
  BOM_ENCODINGS !! encoding = Some sig →
  startswith B sig = true →
  remove_bom file_path encoding fs =
    (Ok (Some true),
     <[file_path := File true true (slice_from (length sig) B)]> fs,
     [EvOpen file_path RB;
      EvLog INFO (msg_bom_found file_path encoding);
      EvOpen file_path WB;
      EvWrite file_path (slice_from (length sig) B);
      EvLog INFO (msg_bom_removed file_path)]).
Proof.
  intros H He Hs. unfold remove_bom. unfold_monad. unfold read_result.
  by rewrite H, He, Hs, H.
Qed.

Lemma remove_bom_write_fails (file_path : path) (encoding : string)
    (fs : filesystem) (B sig : bytes) :
  fs !! file_path = Some (File true false B) →
  BOM_ENCODINGS !! encoding = Some sig →
  startswith B sig = true →
  remove_bom file_path encoding fs =
    (Ok None, fs,
     [EvOpen file_path RB;
      EvLog INFO (msg_bom_found file_path encoding);
      EvOpen file_path WB;
      EvLog ERROR
        (msg_error_processing file_path (PermissionError file_path))]).
Proof.
  intros H He Hs. unfold remove_bom. unfold_monad. unfold read_result.
  by rewrite H, He, Hs, H.
Qed.

(** The five paths are all there is: case analysis on a call. *)
Ltac remove_bom_cases file_path encoding fs :=
  let B := fresh "B" in
  let e := fresh "e" in
  let sig := fresh "sig" in
  let Hr := fresh "Hread" in
  let He := fresh "Henc" in
  let Hs := fresh "Hstarts" in
  let Hf := fresh "Hfile" in
  destruct (read_result fs file_path) as [B|e] eqn:Hr;
  [ destruct (BOM_ENCODINGS !! encoding) as [sig|] eqn:He;
    [ destruct (startswith B sig) eqn:Hs;
      [ pose proof Hr as Hf; apply read_result_Ok in Hf as [[] Hf];
        [ rewrite (remove_bom_stripped file_path encoding fs B sig Hf He Hs)
            in *
        | rewrite (remove_bom_write_fails file_path encoding fs B sig Hf He Hs)
            in * ]
      | rewrite (remove_bom_no_bom file_path encoding fs B sig Hr He Hs) in * ]
    | rewrite (remove_bom_unsupported file_path encoding fs B Hr He) in * ]
  | rewrite (remove_bom_read_fails file_path encoding fs e Hr) in * ].


(** ** [process_file] in terms of [remove_bom] *)

Lemma process_file_unfold (file_path : path) (encoding : string)
    (fs : filesystem) :
  process_file file_path encoding fs =
    (Ok (), (remove_bom file_path encoding fs).1.2,
     (remove_bom file_path encoding fs).2 ++
       match (remove_bom file_path encoding fs).1.1 with
       | Ok None => [EvLog ERROR (msg_failed file_path)]
       | _ => []
       end).
Proof.
  unfold process_file. unfold_monad.
  remove_bom_cases file_path encoding fs; reflexivity.
Qed.

Lemma msg_unsupported_not_io (encoding : string) (file_path : path)
    (e : exn) :
  msg_unsupported encoding ≠ msg_error_processing file_path e.
Proof. unfold msg_unsupported, msg_error_processing. simpl. discriminate. Qed.

Lemma unsupported_line_not_io_line (encoding : string) (file_path : path)
    (e : exn) :
  EvLog ERROR (msg_unsupported encoding)
  ≠ EvLog ERROR (msg_error_processing file_path e).
Proof.
  intros H. apply (msg_unsupported_not_io encoding file_path e). congruence.
Qed.

(** ** The strip operation *)

(** C1 (exact truncation).  For a supported encoding with signature [sig]
    and a readable, writable file whose content [B] starts with [sig],
    [remove_bom] returns [True] (Stripped) and rewrites the file with
    exactly [B[len(sig):]]: [B] is [sig] followed by the new content, the
    length drops by [len(sig)], which is 3 for utf-8 and 2 for the utf-16
    variants, and no other path of the file system changes. *)
Theorem remove_bom_exact_truncation (encoding : string) (sig B : bytes)
    (file_path : path) (fs : filesystem) :
  BOM_ENCODINGS !! encoding = Some sig →
  fs !! file_path = Some (File true true B) →
  sig `prefix_of` B →
  remove_bom file_path encoding fs =
    (Ok (Some true),
     <[file_path := File true true (slice_from (length sig) B)]> fs,
     [EvOpen file_path RB;
      EvLog INFO (msg_bom_found file_path encoding);
      EvOpen file_path WB;
      EvWrite file_path (slice_from (length sig) B);
      EvLog INFO (msg_bom_removed file_path)])
  ∧ B = sig ++ slice_from (length sig) B
  ∧ length (slice_from (length sig) B) + length sig = length B
  ∧ length sig = (if decide (encoding = "utf-8") then 3 else 2)
  ∧ encoding ∈ encoding_choices.
Proof.
  intros He Hf Hp. split; [| split; [| split; [| split]]].
  - apply remove_bom_stripped; [done.. |]. by apply startswith_prefix.
  - by apply prefix_slice_from.
  - destruct Hp as [k ->]. unfold slice_from.
    rewrite drop_app_length, length_app. lia.
  - by apply signature_length.
  - apply BOM_ENCODINGS_supported. by eexists.
Qed.

(** The end-to-end example of the specification: EF BB BF 48 65 6C 6C 6F
    processed as utf-8 becomes 48 65 6C 6C 6F. *)
Lemma remove_bom_exact_truncation_hello :
  remove_bom ["hello.txt"] "utf-8" hello_fs =
    (Ok (Some true),
     <[ ["hello.txt"] := File true true [x48; x65; x6c; x6c; x6f] ]> hello_fs,
     [EvOpen ["hello.txt"] RB;
      EvLog INFO "BOM found in hello.txt (utf-8)";
      EvOpen ["hello.txt"] WB;
      EvWrite ["hello.txt"] [x48; x65; x6c; x6c; x6f];
      EvLog INFO "BOM removed from hello.txt"])
  ∧ hello_content = BOM_UTF8 ++ [x48; x65; x6c; x6c; x6f]
  ∧ 5 + 3 = 8
  ∧ 3 = 3
  ∧ "utf-8" ∈ encoding_choices.
Proof.
  apply (remove_bom_exact_truncation "utf-8" BOM_UTF8 hello_content
           ["hello.txt"] hello_fs).
  - vm_compute. reflexivity.
  - apply lookup_singleton_eq.
  - by exists [x48; x65; x6c; x6c; x6f].
Defined.

(** C2 (content preservation).  For a supported encoding with signature
    [sig] and a readable file whose content [B] does not start with [sig]
    (in particular when [B] is empty or shorter than [sig]), [remove_bom]
    returns [False] (NoBOMFound), leaves the file system as it was, and
    logs nothing above debug level: a short input is no error. *)
Theorem remove_bom_content_preservation (encoding : string) (sig B : bytes)
    (wr : bool) (file_path : path) (fs : filesystem) :
  BOM_ENCODINGS !! encoding = Some sig →
  fs !! file_path = Some (File true wr B) →
  B = [] ∨ length B < length sig ∨ ¬ sig `prefix_of` B →
  remove_bom file_path encoding fs =
    (Ok (Some false), fs,
     [EvOpen file_path RB; EvLog DEBUG (msg_no_bom file_path encoding)])
  ∧ (remove_bom file_path encoding fs).1.2 !! file_path
    = Some (File true wr B).
Proof.
  intros He Hf Hno.
  assert (¬ sig `prefix_of` B) as Hnp.
  { destruct Hno as [->|[Hlt|Hnp]]; [| by apply prefix_too_short | done].
    apply prefix_too_short. pose proof (signature_nonempty _ _ He).
    simpl. lia. }
  assert (remove_bom file_path encoding fs =
    (Ok (Some false), fs,
     [EvOpen file_path RB; EvLog DEBUG (msg_no_bom file_path encoding)]))
    as Heq.
  { apply (remove_bom_no_bom _ _ _ B sig); [| done |].
    - apply read_result_Ok. by exists wr.
    - by apply startswith_false. }
  split; [done |]. by rewrite Heq.
Qed.

Lemma remove_bom_content_preservation_empty :
  remove_bom ["empty.txt"] "utf-16le" {[ ["empty.txt"] := File true true [] ]}
  = (Ok (Some false), {[ ["empty.txt"] := File true true [] ]},
     [EvOpen ["empty.txt"] RB;
      EvLog DEBUG (msg_no_bom ["empty.txt"] "utf-16le")])
  ∧ (remove_bom ["empty.txt"] "utf-16le"
       {[ ["empty.txt"] := File true true [] ]}).1.2 !! ["empty.txt"]
    = Some (File true true []).
Proof.
  apply (remove_bom_content_preservation "utf-16le" BOM_UTF16_LE [] true).
  - vm_compute. reflexivity.
  - apply lookup_singleton_eq.
  - left. reflexivity.
Defined.

(** C3, as stated, fails on a file that holds the signature and nothing
    else: the signature is then a prefix of the content but not a strict
    one, and the file is nevertheless rewritten (to the empty file), so
    neither alternative of the claim holds. *)
Lemma bom_only_file_refutes_strict_prefix :
  ¬ ((∃ rest, rest ≠ [] ∧ BOM_UTF8 = BOM_UTF8 ++ rest
        ∧ (remove_bom ["bom.txt"] "utf-8" bom_only_fs).1.2 !! ["bom.txt"]
          = Some (File true true rest))
     ∨ (remove_bom ["bom.txt"] "utf-8" bom_only_fs).1.2 !! ["bom.txt"]
       = Some (File true true BOM_UTF8)).
Proof.
  rewrite (remove_bom_stripped ["bom.txt"] "utf-8" bom_only_fs BOM_UTF8
             BOM_UTF8);
    [| apply lookup_singleton_eq | vm_compute; reflexivity | reflexivity].
  simpl. rewrite lookup_insert_eq.
  intros [(rest & Hne & Heq & Hl)|Hl].
  - simplify_eq.
  - discriminate Hl.
Qed.

(** C3 (amended: prefix, not strict prefix).  For a supported encoding
    with signature [sig] and any file with content [B], after [remove_bom]
    either the call returned [True], [B] is [sig] followed by some [rest]
    (possibly empty) and the file holds exactly [rest], or the call did not
    return [True] and the file system is unchanged, so the file still
    holds [B].  The signature is never removed in part. *)
Theorem remove_bom_all_or_nothing (encoding : string) (sig B : bytes)
    (r wr : bool) (file_path : path) (fs : filesystem) :
  BOM_ENCODINGS !! encoding = Some sig →
  fs !! file_path = Some (File r wr B) →
  ((remove_bom file_path encoding fs).1.1 = Ok (Some true)
   ∧ ∃ rest, B = sig ++ rest
       ∧ (remove_bom file_path encoding fs).1.2 !! file_path
         = Some (File r wr rest))
  ∨ ((remove_bom file_path encoding fs).1.1 ≠ Ok (Some true)
     ∧ (remove_bom file_path encoding fs).1.2 = fs
     ∧ (remove_bom file_path encoding fs).1.2 !! file_path
       = Some (File r wr B)).
Proof.
  intros He Hf.
  remove_bom_cases file_path encoding fs; simpl;
    try (right; split; [discriminate | done]).
  left. split; [done |].
  simplify_eq.
  exists (slice_from (length sig) B). split.
  - apply prefix_slice_from. by apply startswith_prefix.
  - by rewrite lookup_insert_eq.
Qed.

Lemma remove_bom_all_or_nothing_bom_only :
  ((remove_bom ["bom.txt"] "utf-8" bom_only_fs).1.1 = Ok (Some true)
   ∧ ∃ rest, BOM_UTF8 = BOM_UTF8 ++ rest
       ∧ (remove_bom ["bom.txt"] "utf-8" bom_only_fs).1.2 !! ["bom.txt"]
         = Some (File true true rest))
  ∨ ((remove_bom ["bom.txt"] "utf-8" bom_only_fs).1.1 ≠ Ok (Some true)
     ∧ (remove_bom ["bom.txt"] "utf-8" bom_only_fs).1.2 = bom_only_fs
     ∧ (remove_bom ["bom.txt"] "utf-8" bom_only_fs).1.2 !! ["bom.txt"]
       = Some (File true true BOM_UTF8)).
Proof.
  apply (remove_bom_all_or_nothing "utf-8" BOM_UTF8 BOM_UTF8 true true).
  - vm_compute. reflexivity.
  - apply lookup_singleton_eq.
Defined.

(** C4, as stated, fails on a file that starts with the signature twice:
    the first call removes one copy, and the second call removes the
    other, returning [True] again and changing the bytes once more. *)
Lemma double_bom_stripped_twice :
  (remove_bom ["twice.txt"] "utf-8" double_bom_fs).1.2 !! ["twice.txt"]
    = Some (File true true (BOM_UTF8 ++ [x41]))
  ∧ (remove_bom ["twice.txt"] "utf-8"
       (remove_bom ["twice.txt"] "utf-8" double_bom_fs).1.2).1.1
    = Ok (Some true)
  ∧ (remove_bom ["twice.txt"] "utf-8"
       (remove_bom ["twice.txt"] "utf-8" double_bom_fs).1.2).1.2
      !! ["twice.txt"]
    = Some (File true true [x41]).
Proof.
  rewrite (remove_bom_stripped ["twice.txt"] "utf-8" double_bom_fs
             (BOM_UTF8 ++ BOM_UTF8 ++ [x41]) BOM_UTF8);
    [| apply lookup_singleton_eq | vm_compute; reflexivity | reflexivity].
  simpl.
  rewrite (remove_bom_stripped ["twice.txt"] "utf-8" _
             (BOM_UTF8 ++ [x41]) BOM_UTF8);
    [| apply lookup_insert_eq | vm_compute; reflexivity | reflexivity].
  simpl. by rewrite !lookup_insert_eq.
Qed.

(** C4 (amended: the content does not start with the signature twice).
    For a supported encoding with signature [sig] and a readable, writable
    file whose content does not start with [sig ++ sig], a second call of
    [remove_bom] on the file system the first call leaves returns [False]
    (NoBOMFound) and leaves that file system unchanged, so two calls leave
    the same bytes as one. *)
Theorem remove_bom_twice (encoding : string) (sig B : bytes)
    (file_path : path) (fs : filesystem) :
  BOM_ENCODINGS !! encoding = Some sig →
  fs !! file_path = Some (File true true B) →
  ¬ (sig ++ sig) `prefix_of` B →
  remove_bom file_path encoding (remove_bom file_path encoding fs).1.2 =
    (Ok (Some false), (remove_bom file_path encoding fs).1.2,
     [EvOpen file_path RB; EvLog DEBUG (msg_no_bom file_path encoding)]).
Proof.
  intros He Hf Hnn.
  destruct (startswith B sig) eqn:Hs.
  - rewrite (remove_bom_stripped _ _ _ _ _ Hf He Hs). simpl.
    apply (remove_bom_no_bom _ _ _ (slice_from (length sig) B) sig);
      [| done |].
    + apply read_result_Ok. exists true. apply lookup_insert_eq.
    + apply startswith_false. intros [k Hk]. apply Hnn.
      apply startswith_prefix in Hs. apply prefix_slice_from in Hs.
      exists k. rewrite Hs at 1. rewrite Hk. by rewrite <- app_assoc.
  - assert (read_result fs file_path = Ok B) as Hr.
    { apply read_result_Ok. by exists true. }
    rewrite (remove_bom_no_bom _ _ _ _ _ Hr He Hs). simpl.
    by apply (remove_bom_no_bom _ _ _ B sig).
Qed.

Lemma remove_bom_twice_hello :
  remove_bom ["hello.txt"] "utf-8"
    (remove_bom ["hello.txt"] "utf-8" hello_fs).1.2 =
    (Ok (Some false), (remove_bom ["hello.txt"] "utf-8" hello_fs).1.2,
     [EvOpen ["hello.txt"] RB;
      EvLog DEBUG (msg_no_bom ["hello.txt"] "utf-8")]).
Proof.
  apply (remove_bom_twice "utf-8" BOM_UTF8 hello_content).
  - vm_compute. reflexivity.
  - apply lookup_singleton_eq.
  - intros [k Hk]. discriminate Hk.
Defined.

(** C5 (unsupported encoding).  For an encoding outside utf-8, utf-16le,
    utf-16be and any readable file, [remove_bom] returns [None], leaves
    the file system unchanged and logs, at error level, the line
    "Unsupported encoding: ...".  It is no silent no-op, and the line
    differs from the line "Error processing ...: ..." that reports any
    failure to open, read or write, whatever the path and the exception. *)
Theorem remove_bom_unsupported_encoding (encoding : string) (B : bytes)
    (wr : bool) (file_path : path) (fs : filesystem) :
  encoding ∉ encoding_choices →
  fs !! file_path = Some (File true wr B) →
  remove_bom file_path encoding fs =
    (Ok None, fs,
     [EvOpen file_path RB; EvLog ERROR (msg_unsupported encoding)])
  ∧ (∀ (file_path' : path) (e : exn),
       msg_unsupported encoding ≠ msg_error_processing file_path' e)
  ∧ (∀ (file_path' : path) (encoding' : string) (fs' : filesystem) (e : exn),
       read_result fs' file_path' = Raise e →
       EvLog ERROR (msg_unsupported encoding)
         ∉ (remove_bom file_path' encoding' fs').2).
Proof.
  intros Hn Hf. split; [| split].
  - apply (remove_bom_unsupported _ _ _ B).
    + apply read_result_Ok. by exists wr.
    + by apply BOM_ENCODINGS_unsupported.
  - intros. apply msg_unsupported_not_io.
  - intros file_path' encoding' fs' e Hr.
    rewrite (remove_bom_read_fails _ _ _ _ Hr). simpl.
    rewrite !elem_of_cons, elem_of_nil.
    intros [Heq|[Heq|[]]]; [discriminate Heq |].
    by apply unsupported_line_not_io_line in Heq.
Qed.

Lemma remove_bom_unsupported_encoding_latin1 :
  remove_bom ["hello.txt"] "latin-1" hello_fs =
    (Ok None, hello_fs,
     [EvOpen ["hello.txt"] RB; EvLog ERROR "Unsupported encoding: latin-1"])
  ∧ (∀ (file_path' : path) (e : exn),
       msg_unsupported "latin-1" ≠ msg_error_processing file_path' e)
  ∧ (∀ (file_path' : path) (encoding' : string) (fs' : filesystem) (e : exn),
       read_result fs' file_path' = Raise e →
       EvLog ERROR (msg_unsupported "latin-1")
         ∉ (remove_bom file_path' encoding' fs').2).
Proof.
  apply (remove_bom_unsupported_encoding "latin-1" hello_content true).
  - unfold encoding_choices. rewrite !elem_of_cons, elem_of_nil.
    intros [H|[H|[H|[]]]]; discriminate H.
  - apply lookup_singleton_eq.
Defined.

(** ** The file-processing operation *)

Lemma remove_bom_no_write (encoding : string) (sig B : bytes) (r wr : bool)
    (file_path : path) (fs : filesystem) :
  BOM_ENCODINGS !! encoding = Some sig →
  fs !! file_path = Some (File r wr B) →
  ¬ sig `prefix_of` B →
  (remove_bom file_path encoding fs).1.2 = fs
  ∧ Forall (λ ev, is_write_event ev = false)
      (remove_bom file_path encoding fs).2.
Proof.
  intros He Hf Hnp.
  remove_bom_cases file_path encoding fs; simpl;
    try (split; [done | repeat constructor]).
  - exfalso. simplify_eq. by apply Hnp, startswith_prefix.
  - exfalso. simplify_eq. by apply Hnp, startswith_prefix.
Qed.

(** C6 (no write without a BOM).  For a supported encoding with signature
    [sig] and any file whose content does not start with [sig], processing
    the file leaves the whole file system exactly as it was and emits no
    event that opens a file for writing or writes to one; this holds for
    [process_file] and for the [remove_bom] it calls. *)
Theorem process_file_without_bom_writes_nothing (encoding : string)
    (sig B : bytes) (r wr : bool) (file_path : path) (fs : filesystem) :
  BOM_ENCODINGS !! encoding = Some sig →
  fs !! file_path = Some (File r wr B) →
  ¬ sig `prefix_of` B →
  (process_file file_path encoding fs).1.2 = fs
  ∧ Forall (λ ev, is_write_event ev = false)
      (process_file file_path encoding fs).2
  ∧ (remove_bom file_path encoding fs).1.2 = fs
  ∧ Forall (λ ev, is_write_event ev = false)
      (remove_bom file_path encoding fs).2.
Proof.
  intros He Hf Hnp.
  destruct (remove_bom_no_write _ _ _ _ _ _ _ He Hf Hnp) as [Hfs Hev].
  rewrite process_file_unfold. simpl. repeat split; try done.
  apply Forall_app. split; [done |].
  destruct ((remove_bom file_path encoding fs).1.1) as [[?|]|?];
    repeat constructor.
Qed.

Lemma process_file_without_bom_writes_nothing_plain :
  (process_file ["plain.txt"] "utf-8" plain_fs).1.2 = plain_fs
  ∧ Forall (λ ev, is_write_event ev = false)
      (process_file ["plain.txt"] "utf-8" plain_fs).2
  ∧ (remove_bom ["plain.txt"] "utf-8" plain_fs).1.2 = plain_fs
  ∧ Forall (λ ev, is_write_event ev = false)
      (remove_bom ["plain.txt"] "utf-8" plain_fs).2.
Proof.
  apply (process_file_without_bom_writes_nothing "utf-8" BOM_UTF8
           [x48; x69] true true).
  - vm_compute. reflexivity.
  - apply lookup_singleton_eq.
  - intros [k Hk]. discriminate Hk.
Defined.

(** C9 (read before validation).  When opening or reading the file fails
    with exception [e], [remove_bom] returns [None] and logs the I/O error
    line for [e], whatever the encoding, supported or not: the line
    "Unsupported encoding" is not logged.  Conversely, on any file system
    and path, a call that logs "Unsupported encoding" has first read the
    file successfully, its first event being that open. *)
Theorem remove_bom_reads_before_validating (file_path : path)
    (encoding : string) (fs : filesystem) (e : exn) :
  read_result fs file_path = Raise e →
  remove_bom file_path encoding fs =
    (Ok None, fs,
     [EvOpen file_path RB; EvLog ERROR (msg_error_processing file_path e)])
  ∧ (EvLog ERROR (msg_unsupported encoding)
       ∉ (remove_bom file_path encoding fs).2)
  ∧ (∀ (file_path' : path) (fs' : filesystem),
       EvLog ERROR (msg_unsupported encoding)
         ∈ (remove_bom file_path' encoding fs').2 →
       ∃ B, read_result fs' file_path' = Ok B
            ∧ ((remove_bom file_path' encoding fs').2
               = [EvOpen file_path' RB;
                  EvLog ERROR (msg_unsupported encoding)])).
Proof.
  intros Hr.
  assert (∀ (p : path) (fs0 : filesystem) (e0 : exn),
            read_result fs0 p = Raise e0 →
            EvLog ERROR (msg_unsupported encoding)
              ∉ (remove_bom p encoding fs0).2) as Hnot.
  { intros p fs0 e0 H0. rewrite (remove_bom_read_fails _ _ _ _ H0). simpl.
    rewrite !elem_of_cons, elem_of_nil.
    intros [Heq|[Heq|[]]]; [discriminate Heq |].
    by apply unsupported_line_not_io_line in Heq. }
  split; [by apply remove_bom_read_fails | split; [by eapply Hnot |]].
  intros file_path' fs' Hin.
  remove_bom_cases file_path' encoding fs'; simpl in Hin;
    try (by exists B);
    exfalso;
    repeat (apply elem_of_cons in Hin as [Hin|Hin];
            [first [discriminate Hin
                   | by apply unsupported_line_not_io_line in Hin] |]);
    by apply elem_of_nil in Hin.
Qed.

Lemma remove_bom_reads_before_validating_locked :
  remove_bom ["locked.txt"] "latin-1" locked_fs =
    (Ok None, locked_fs,
     [EvOpen ["locked.txt"] RB;
      EvLog ERROR
        "Error processing locked.txt: [Errno 13] Permission denied: 'locked.txt'"])
  ∧ (EvLog ERROR (msg_unsupported "latin-1")
       ∉ (remove_bom ["locked.txt"] "latin-1" locked_fs).2)
  ∧ (∀ (file_path' : path) (fs' : filesystem),
       EvLog ERROR (msg_unsupported "latin-1")
         ∈ (remove_bom file_path' "latin-1" fs').2 →
       ∃ B, read_result fs' file_path' = Ok B
            ∧ ((remove_bom file_path' "latin-1" fs').2
               = [EvOpen file_path' RB;
                  EvLog ERROR (msg_unsupported "latin-1")])).
Proof.
  apply (remove_bom_reads_before_validating ["locked.txt"] "latin-1"
           locked_fs (PermissionError ["locked.txt"])).
  unfold read_result, locked_fs. by rewrite lookup_singleton_eq.
Defined.

(** ** [process_directory] never raises *)

Lemma process_file_never_raises (file_path : path) (encoding : string)
    (fs : filesystem) :
  (process_file file_path encoding fs).1.1 = Ok ().
Proof. by rewrite process_file_unfold. Qed.

Lemma process_directory_S (n : nat) (directory : path) (encoding : string)
    (recursive : bool) :
  process_directory (S n) directory encoding recursive =
    try_except_F
      (items ← lift (os_listdir directory);
       for_each items
         (loop_body (λ p, call n (process_directory n p encoding recursive))
            directory encoding recursive))
      (directory_handler directory).
Proof. reflexivity. Qed.

Lemma call_room {A} (room : nat) (f : MF A) : 0 < room → call room f = f.
Proof. destruct room; [lia | done]. Qed.

Lemma listdir_result_OSError (fs : filesystem) (directory : path) (e : exn) :
  listdir_result fs directory = Raise e → isinstance_OSError e = true.
Proof.
  unfold listdir_result.
  destruct (fs !! directory) as [[| [] |]|]; intros [= <-]; reflexivity.
Qed.

Lemma directory_handler_returns (directory : path) (e : exn)
    (fs : filesystem) :
  ∃ line, directory_handler directory e fs = (Ok (), fs, [EvLog ERROR line]).
Proof.
  unfold directory_handler.
  destruct (isinstance_OSError e); by eexists.
Qed.

(** Whatever the room on the stack, a call of [process_directory] that
    returns returns normally: the two handlers of lines 92-95 catch every
    exception of the body, log it and fall through. *)
Lemma process_directory_never_raises (encoding : string) (recursive : bool)
    (fuel : nat) (directory : path) (fs : filesystem) (r : result unit)
    (fs' : filesystem) (t : list event) :
  process_directory fuel directory encoding recursive fs = Some (r, fs', t) →
  r = Ok ().
Proof.
  destruct fuel as [|n]; [discriminate |]. rewrite process_directory_S.
  unfold try_except_F.
  match goal with
  | |- match ?x with _ => _ end = _ → _ =>
      destruct x as [[[[[]|e] fs1] t1]|]
  end.
  - by intros [= <- _ _].
  - destruct (directory_handler_returns directory e fs1) as [line ->].
    by intros [= <- _ _].
  - discriminate.
Qed.

(** With room for one call at least, [process_directory] returns. *)
Lemma loop_body_returns (walk : path → MF unit) (directory : path)
    (encoding : string) (recursive : bool) (item : string)
    (fs : filesystem) :
  (∀ p fs0, is_Some (walk p fs0)) →
  is_Some (loop_body walk directory encoding recursive item fs).
Proof.
  intros Hwalk.
  unfold loop_body, mbind, MF_bind, lift, os_path_isfile, os_path_isdir.
  destruct (is_file fs (os_path_join directory item)).
  - destruct (process_file (os_path_join directory item) encoding fs)
      as [[r0 fs0] t0]. by eexists.
  - destruct (is_dir fs (os_path_join directory item)) eqn:Hd, recursive;
      simpl; rewrite ?Hd; try (by eexists).
    destruct (Hwalk (os_path_join directory item) fs) as [[[r1 fs1] t1] ->].
    by eexists.
Qed.

Lemma for_each_returns (items : list string) (body : string → MF unit) :
  (∀ item fs0, is_Some (body item fs0)) →
  ∀ fs, is_Some (for_each items body fs).
Proof.
  intros Hbody. induction items as [|item rest IHl]; intros fs; simpl.
  - by eexists.
  - unfold mbind at 1. unfold MF_bind at 1.
    destruct (Hbody item fs) as [[[[[]|e] fs1] t1] ->]; [| by eexists].
    destruct (IHl fs1) as [[[r2 fs2] t2] ->]. by eexists.
Qed.

Lemma process_directory_returns (encoding : string) (recursive : bool)
    (fuel : nat) :
  0 < fuel →
  ∀ (directory : path) (fs : filesystem),
  ∃ fs' t, process_directory fuel directory encoding recursive fs
           = Some (Ok (), fs', t).
Proof.
  induction fuel as [|n IH]; intros Hpos directory fs; [lia |].
  assert (is_Some (process_directory (S n) directory encoding recursive fs))
    as [[[r fs'] t] Hrun].
  { rewrite process_directory_S.
    unfold try_except_F, mbind, MF_bind, lift, os_listdir.
    destruct (listdir_result fs directory) as [names|e].
    - destruct (for_each_returns names
                  (loop_body
                     (λ p, call n (process_directory n p encoding recursive))
                     directory encoding recursive)) with (fs := fs)
        as [[[[[]|e] fs1] t1] ->].
      + intros item fs0. apply loop_body_returns. intros p fs1.
        destruct n as [|n']; [by eexists |].
        rewrite call_room by lia.
        destruct (IH ltac:(lia) p fs1) as (fs2 & t2 & ->). by eexists.
      + by eexists.
      + destruct (directory_handler_returns directory e fs1) as [line ->].
        by eexists.
    - destruct (directory_handler_returns directory e fs) as [line ->].
      by eexists. }
  exists fs', t. rewrite Hrun.
  by rewrite (process_directory_never_raises _ _ _ _ _ _ _ _ Hrun).
Qed.

(** ** Paths *)

Lemma join_prefix_inj (d q : path) (i j : string) :
  os_path_join d i `prefix_of` q → os_path_join d j `prefix_of` q → i = j.
Proof.
  unfold os_path_join. intros [k1 ->] [k2 Hk].
  rewrite <- !app_assoc in Hk. apply app_inv_head in Hk. by simplify_eq.
Qed.

Lemma join_join_prefix (d q : path) (i j : string) :
  os_path_join (os_path_join d i) j `prefix_of` q →
  os_path_join d i `prefix_of` q.
Proof.
  unfold os_path_join. intros [k ->]. exists (j :: k).
  by rewrite <- !app_assoc.
Qed.

Lemma join_prefix_ne (p q : path) (j : string) :
  os_path_join p j `prefix_of` q → q ≠ p.
Proof.
  unfold os_path_join. intros Hp ->. apply prefix_length in Hp.
  rewrite length_app in Hp. simpl in Hp. lia.
Qed.

Lemma join_inj (d : path) (i j : string) :
  os_path_join d i = os_path_join d j → i = j.
Proof. unfold os_path_join. intros H. apply app_inv_head in H. by simplify_eq. Qed.

(** ** File systems of the same shape *)

Lemma same_shape_refl (fs : filesystem) : same_shape fs fs.
Proof. by intros q. Qed.

Lemma same_shape_trans (fs1 fs2 fs3 : filesystem) :
  same_shape fs1 fs2 → same_shape fs2 fs3 → same_shape fs1 fs3.
Proof. intros H1 H2 q. by rewrite H1. Qed.

Lemma same_shape_dir (fs fs' : filesystem) (q : path) (l : bool)
    (names : list string) :
  same_shape fs fs' →
  fs !! q = Some (Dir l names) → fs' !! q = Some (Dir l names).
Proof.
  intros H Hq. specialize (H q). rewrite Hq in H. simpl in H.
  destruct (fs' !! q) as [[]|]; simpl in H; by simplify_eq.
Qed.

Lemma same_shape_sym (fs fs' : filesystem) :
  same_shape fs fs' → same_shape fs' fs.
Proof. intros H q. by rewrite H. Qed.

Lemma same_shape_listdir (fs fs' : filesystem) (d : path) :
  same_shape fs fs' → listdir_result fs' d = listdir_result fs d.
Proof.
  intros H. specialize (H d). unfold listdir_result.
  destruct (fs !! d) as [[]|], (fs' !! d) as [[]|];
    simpl in H; by simplify_eq.
Qed.

Lemma same_shape_is_file (fs fs' : filesystem) (p : path) :
  same_shape fs fs' → is_file fs' p = is_file fs p.
Proof.
  intros H. specialize (H p). unfold is_file.
  destruct (fs !! p) as [[]|], (fs' !! p) as [[]|];
    simpl in H; by simplify_eq.
Qed.

Lemma same_shape_is_dir (fs fs' : filesystem) (p : path) :
  same_shape fs fs' → is_dir fs' p = is_dir fs p.
Proof.
  intros H. specialize (H p). unfold is_dir.
  destruct (fs !! p) as [[]|], (fs' !! p) as [[]|];
    simpl in H; by simplify_eq.
Qed.

Lemma same_shape_depth_bounded (N : nat) (fs fs' : filesystem) :
  same_shape fs fs' → depth_bounded N fs → depth_bounded N fs'.
Proof.
  intros H Hb q l names Hq. apply (Hb q l names).
  by apply (same_shape_dir fs' fs), Hq; apply same_shape_sym.
Qed.

Lemma same_shape_listings_distinct (fs fs' : filesystem) :
  same_shape fs fs' → listings_distinct fs → listings_distinct fs'.
Proof.
  intros H Hb q l names Hq. apply (Hb q l names).
  by apply (same_shape_dir fs' fs), Hq; apply same_shape_sym.
Qed.

Lemma listdir_result_Ok (fs : filesystem) (d : path) (names : list string) :
  listdir_result fs d = Ok names ↔ fs !! d = Some (Dir true names).
Proof.
  unfold listdir_result. split.
  - destruct (fs !! d) as [[| [] |]|]; intros H; by simplify_eq.
  - by intros ->.
Qed.

(** ** What [process_file] touches *)

Lemma process_file_fs (file_path : path) (encoding : string)
    (fs : filesystem) :
  (process_file file_path encoding fs).1.2 = fs
  ∨ ∃ B c, fs !! file_path = Some (File true true B)
           ∧ (process_file file_path encoding fs).1.2
             = <[file_path := File true true c]> fs.
Proof.
  rewrite process_file_unfold. simpl.
  remove_bom_cases file_path encoding fs; simpl; eauto.
Qed.

Lemma process_file_same_shape (file_path : path) (encoding : string)
    (fs : filesystem) :
  same_shape fs (process_file file_path encoding fs).1.2.
Proof.
  destruct (process_file_fs file_path encoding fs) as [->|(B & c & Hf & ->)];
    [apply same_shape_refl |].
  intros q. destruct (decide (q = file_path)) as [->|Hne].
  - by rewrite lookup_insert_eq, Hf.
  - by rewrite lookup_insert_ne.
Qed.

Lemma process_file_frame (file_path q : path) (encoding : string)
    (fs : filesystem) :
  q ≠ file_path →
  (process_file file_path encoding fs).1.2 !! q = fs !! q.
Proof.
  intros Hne.
  destruct (process_file_fs file_path encoding fs) as [->|(B & c & Hf & ->)];
    [done |].
  by rewrite lookup_insert_ne.
Qed.

Lemma process_file_events (file_path : path) (encoding : string)
    (fs : filesystem) :
  Forall (λ ev, (∀ q, event_path ev = Some q → q = file_path)
                ∧ (∀ q, ev ≠ EvIsfile q) ∧ (∀ q, ev ≠ EvListdir q))
    (process_file file_path encoding fs).2.
Proof.
  rewrite process_file_unfold. simpl.
  remove_bom_cases file_path encoding fs; simpl;
    repeat (apply Forall_cons; split;
            [split; [| split]; intros q Hq; simpl in Hq; by simplify_eq |]);
    by apply Forall_nil.
Qed.

(** ** What a run of the loop touches *)

Section loop_run_facts.
Context (encoding : string) (recursive : bool).

Lemma loop_run_same_shape (d : path) (items : list string)
    (fs fs' : filesystem) (t : list event) :
  loop_run encoding recursive d items fs fs' t → same_shape fs fs'.
Proof.
  induction 1;
    eauto using same_shape_refl, same_shape_trans, process_file_same_shape.
Qed.

(** A run over [items] in [d] changes nothing outside the subtrees of
    the items. *)
Lemma loop_run_frame (d : path) (items : list string)
    (fs fs' : filesystem) (t : list event) :
  loop_run encoding recursive d items fs fs' t →
  ∀ q, (∀ i, i ∈ items → ¬ os_path_join d i `prefix_of` q) →
       fs' !! q = fs !! q.
Proof.
  induction 1 as [d fs
                 |d item rest fs fs' t Hf Hrest IHrest
                 |d item rest fs names fs1 t1 fs' t Hf Hd Hrec Hl
                    Hsub IHsub Hrest IHrest
                 |d item rest fs e fs' t Hf Hd Hrec Hl Hrest IHrest
                 |d item rest fs fs' t Hf Hd Hrec Hrest IHrest
                 |d item rest fs fs' t Hf Hd Hrest IHrest];
    intros q Hq; try done;
    try (apply IHrest; intros i Hi; apply Hq; by right).
  - rewrite IHrest by (intros i Hi; apply Hq; by right).
    apply process_file_frame. intros ->. by apply (Hq item); [left |].
  - rewrite IHrest by (intros i Hi; apply Hq; by right).
    apply IHsub. intros j Hj Hp. apply (Hq item); [by left |].
    by eapply join_join_prefix.
Qed.

(** Every event of a run over [items] in [d] that is about a path is
    about a path in the subtree of one of the items. *)
Lemma loop_run_events (d : path) (items : list string)
    (fs fs' : filesystem) (t : list event) :
  loop_run encoding recursive d items fs fs' t →
  ∀ ev q, ev ∈ t → event_path ev = Some q →
          ∃ i, i ∈ items ∧ os_path_join d i `prefix_of` q.
Proof.
  induction 1 as [d fs
                 |d item rest fs fs' t Hf Hrest IHrest
                 |d item rest fs names fs1 t1 fs' t Hf Hd Hrec Hl
                    Hsub IHsub Hrest IHrest
                 |d item rest fs e fs' t Hf Hd Hrec Hl Hrest IHrest
                 |d item rest fs fs' t Hf Hd Hrec Hrest IHrest
                 |d item rest fs fs' t Hf Hd Hrest IHrest];
    intros ev q Hin Hev.
  - by apply elem_of_nil in Hin.
  - apply elem_of_cons in Hin as [->|Hin].
    { simpl in Hev. simplify_eq. exists item. split; [by left | done]. }
    apply elem_of_app in Hin as [Hin|Hin].
    + pose proof (process_file_events (os_path_join d item) encoding fs)
        as Hpf.
      rewrite Forall_forall in Hpf. destruct (Hpf ev Hin) as [Hp _].
      rewrite (Hp q Hev). exists item. split; [by left | done].
    + destruct (IHrest ev q Hin Hev) as (i & Hi & Hp).
      exists i. split; [by right | done].
  - repeat (apply elem_of_cons in Hin as [->|Hin];
            [simpl in Hev; simplify_eq; exists item;
             split; [by left | done] |]).
    apply elem_of_app in Hin as [Hin|Hin].
    + destruct (IHsub ev q Hin Hev) as (j & Hj & Hp).
      exists item. split; [by left | by eapply join_join_prefix].
    + destruct (IHrest ev q Hin Hev) as (i & Hi & Hp).
      exists i. split; [by right | done].
  - repeat (apply elem_of_cons in Hin as [->|Hin];
            [simpl in Hev; simplify_eq; try (exists item;
             split; [by left | done]) |]).
    destruct (IHrest ev q Hin Hev) as (i & Hi & Hp).
    exists i. split; [by right | done].
  - repeat (apply elem_of_cons in Hin as [->|Hin];
            [simpl in Hev; simplify_eq; try (exists item;
             split; [by left | done]) |]).
    destruct (IHrest ev q Hin Hev) as (i & Hi & Hp).
    exists i. split; [by right | done].
  - repeat (apply elem_of_cons in Hin as [->|Hin];
            [simpl in Hev; simplify_eq; try (exists item;
             split; [by left | done]) |]).
    destruct (IHrest ev q Hin Hev) as (i & Hi & Hp).
    exists i. split; [by right | done].
Qed.
End loop_run_facts.

(** ** Termination *)

Lemma lookup_max_depth (fs : filesystem) (q : path) (e : entry) :
  fs !! q = Some e → length q ≤ max_depth fs.
Proof.
  intros Hq. unfold max_depth. apply max_list_elem_of_le.
  apply list_elem_of_fmap. exists q. split; [done |].
  apply list_elem_of_fmap. exists (q, e). split; [done |].
  by apply elem_of_map_to_list.
Qed.

Lemma max_depth_bounded (fs : filesystem) : depth_bounded (max_depth fs) fs.
Proof. intros q l names Hq. by eapply lookup_max_depth. Qed.

(** *** [process_directory] runs as [loop_run] describes, when the stack
    has room for the nesting of the tree *)

Section complete_walk.
Context (encoding : string) (recursive : bool) (N n : nat).
Hypothesis IH : ∀ (d : path) (fs : filesystem),
  depth_bounded N fs → N - length d < n →
  ∃ fs' t, process_directory n d encoding recursive fs
           = Some (Ok (), fs', t)
           ∧ walk_run encoding recursive d fs fs' t.

Lemma loop_body_complete (directory : path) (item : string)
    (fs : filesystem) :
  depth_bounded N fs → N - length directory < S n →
  ∃ fs' t,
    loop_body (λ p, call n (process_directory n p encoding recursive))
      directory encoding recursive item fs = Some (Ok (), fs', t)
    ∧ ∀ rest fs'' t2,
        loop_run encoding recursive directory rest fs' fs'' t2 →
        loop_run encoding recursive directory (item :: rest) fs fs''
          (t ++ t2).
Proof.
  intros Hb Hfuel.
  unfold loop_body, mbind, MF_bind, lift, os_path_isfile, os_path_isdir.
  destruct (is_file fs (os_path_join directory item)) eqn:Hf.
  - pose proof (process_file_never_raises (os_path_join directory item)
                  encoding fs) as Hok.
    pose proof (λ rest fs'' t2,
                  loop_file encoding recursive directory item rest fs
                    fs'' t2 Hf) as L.
    destruct (process_file (os_path_join directory item) encoding fs)
      as [[r0 fs0] t0].
    simpl in Hok, L. subst r0. eexists _, _. split; [done |].
    intros rest fs'' t2 Hrest. simpl. by apply L.
  - destruct (is_dir fs (os_path_join directory item)) eqn:Hd;
      destruct recursive eqn:Hrec; simpl; rewrite ?Hd; simpl.
    + assert (N - length (os_path_join directory item) < n) as Hlt.
      { unfold is_dir in Hd.
        destruct (fs !! os_path_join directory item)
          as [[|l names|]|] eqn:Hq; try discriminate.
        apply Hb in Hq. unfold os_path_join in *.
        rewrite length_app in *. simpl in *. lia. }
      rewrite call_room by lia.
      destruct (IH _ fs Hb Hlt) as (fs1 & t1 & -> & Hw).
      eexists _, _. split; [done |].
      intros rest fs'' t2 Hrest. unfold walk_run in Hw.
      destruct (listdir_result fs (os_path_join directory item))
        as [names|e] eqn:Hl.
      * destruct Hw as (t' & Hrun & ->). simpl.
        by eapply loop_descend.
      * destruct Hw as [-> ->]. simpl. by eapply loop_descend_fails.
    + eexists _, _. split; [done |].
      intros rest fs'' t2 Hrest. simpl. by apply loop_skip.
    + eexists _, _. split; [done |].
      intros rest fs'' t2 Hrest. simpl. by apply loop_other.
    + eexists _, _. split; [done |].
      intros rest fs'' t2 Hrest. simpl. by apply loop_other.
Qed.

Lemma for_each_complete (directory : path) (items : list string) :
  ∀ fs : filesystem,
  depth_bounded N fs → N - length directory < S n →
  ∃ fs' t,
    for_each items
      (loop_body (λ p, call n (process_directory n p encoding recursive))
         directory encoding recursive) fs = Some (Ok (), fs', t)
    ∧ loop_run encoding recursive directory items fs fs' t.
Proof.
  induction items as [|item rest IHl]; intros fs Hb Hfuel; simpl.
  - eexists _, _. split; [done | constructor].
  - unfold mbind at 1. unfold MF_bind at 1.
    destruct (loop_body_complete directory item fs Hb Hfuel)
      as (fs1 & t1 & -> & Hrun).
    destruct (IHl fs1) as (fs2 & t2 & -> & Hrest); [| done |].
    + pose proof (Hrun [] fs1 [] (loop_done _ _ _ _)) as H1.
      apply loop_run_same_shape in H1.
      by eapply same_shape_depth_bounded.
    + eexists _, _. split; [done |]. by apply Hrun.
Qed.
End complete_walk.

Lemma process_directory_complete (encoding : string) (recursive : bool)
    (N fuel : nat) :
  ∀ (directory : path) (fs : filesystem),
  depth_bounded N fs → N - length directory < fuel →
  ∃ fs' t, process_directory fuel directory encoding recursive fs
           = Some (Ok (), fs', t)
           ∧ walk_run encoding recursive directory fs fs' t.
Proof.
  induction fuel as [|n IH]; intros directory fs Hb Hfuel; [lia |].
  rewrite process_directory_S.
  unfold try_except_F, mbind, MF_bind, lift, os_listdir, walk_run.
  destruct (listdir_result fs directory) as [names|e] eqn:Hl.
  - destruct (for_each_complete encoding recursive N n IH directory names fs
                Hb Hfuel) as (fs' & t & -> & Hrun).
    eexists _, _. split; [done |]. by eexists.
  - unfold directory_handler. rewrite (listdir_result_OSError _ _ _ Hl).
    unfold logging_error, logging_log. by eexists _, _.
Qed.

(** The walk returns, and returns normally, having run as [loop_run]
    describes, with the room [walk_fuel] computes, and so it does with any
    larger room. *)
Lemma process_directory_terminates (encoding : string) (recursive : bool)
    (directory : path) (fs : filesystem) (fuel : nat) :
  walk_fuel fs directory ≤ fuel →
  ∃ fs' t, process_directory fuel directory encoding recursive fs
           = Some (Ok (), fs', t)
           ∧ walk_run encoding recursive directory fs fs' t.
Proof.
  intros Hfuel.
  apply (process_directory_complete encoding recursive (max_depth fs)).
  - apply max_depth_bounded.
  - unfold walk_fuel in Hfuel. lia.
Qed.

(** ** The paths a run examines *)

Lemma elem_of_visited (t : list event) (q : path) :
  q ∈ visited t ↔ EvIsfile q ∈ t.
Proof.
  unfold visited. rewrite list_elem_of_omap. split.
  - intros (ev & Hin & Hev). destruct ev; by simplify_eq.
  - intros Hin. by exists (EvIsfile q).
Qed.

Lemma visited_app (t1 t2 : list event) :
  visited (t1 ++ t2) = visited t1 ++ visited t2.
Proof. apply omap_app. Qed.

Lemma visited_none (t : list event) :
  Forall (λ ev, ∀ q, ev ≠ EvIsfile q) t → visited t = [].
Proof.
  induction t as [|ev t IH]; [done |].
  intros H. apply Forall_cons in H as [Hev Ht].
  destruct ev; first [exact (IH Ht) | by destruct (Hev p)].
Qed.

Lemma visited_process_file (file_path : path) (encoding : string)
    (fs : filesystem) :
  visited (process_file file_path encoding fs).2 = [].
Proof.
  apply visited_none.
  eapply Forall_impl; [apply process_file_events |].
  simpl. tauto.
Qed.

Lemma first_event_process_file (file_path : path) (encoding : string)
    (fs : filesystem) :
  EvOpen file_path RB ∈ (process_file file_path encoding fs).2.
Proof.
  rewrite process_file_unfold. simpl. apply elem_of_app. left.
  remove_bom_cases file_path encoding fs; simpl; by left.
Qed.

(** *** File systems that differ in writable files only *)

Lemma same_locked_refl (fs : filesystem) : same_locked fs fs.
Proof. intros q. by left. Qed.

Lemma same_locked_trans (fs1 fs2 fs3 : filesystem) :
  same_locked fs1 fs2 → same_locked fs2 fs3 → same_locked fs1 fs3.
Proof.
  intros H1 H2 q.
  destruct (H1 q) as [E1|(B & B' & E1 & E1')],
           (H2 q) as [E2|(C & C' & E2 & E2')].
  - left. congruence.
  - right. exists C, C'. split; congruence.
  - right. exists B, B'. split; congruence.
  - right. by exists B, C'.
Qed.

Lemma same_locked_same_shape (fs fs' : filesystem) :
  same_locked fs fs' → same_shape fs fs'.
Proof. intros H q. by destruct (H q) as [->|(B & B' & -> & ->)]. Qed.

Lemma process_file_same_locked (file_path : path) (encoding : string)
    (fs : filesystem) :
  same_locked fs (process_file file_path encoding fs).1.2.
Proof.
  destruct (process_file_fs file_path encoding fs) as [->|(B & c & Hf & ->)];
    [apply same_locked_refl |].
  intros q. destruct (decide (q = file_path)) as [->|Hne].
  - right. exists B, c. by rewrite lookup_insert_eq.
  - left. by rewrite lookup_insert_ne.
Qed.

Lemma loop_run_same_locked (encoding : string) (recursive : bool) (d : path)
    (items : list string) (fs fs' : filesystem) (t : list event) :
  loop_run encoding recursive d items fs fs' t → same_locked fs fs'.
Proof.
  induction 1;
    eauto using same_locked_refl, same_locked_trans, process_file_same_locked.
Qed.

(** The error the processing of a file meets does not depend on the
    content of the writable files. *)
Lemma same_locked_file_failure (encoding : string) (fs fs' : filesystem)
    (p : path) :
  same_locked fs fs' → file_failure encoding fs' p = file_failure encoding fs p.
Proof.
  intros H. unfold file_failure.
  destruct (H p) as [->|(B & B' & -> & ->)]; [done |].
  destruct (BOM_ENCODINGS !! encoding); [| done].
  by rewrite !andb_false_r.
Qed.

Ltac elem_here := first [by left | right; elem_here].

(** [process_file] reports the error it meets, and adds its own line. *)
Lemma process_file_reports (file_path : path) (encoding : string)
    (fs : filesystem) (line : string) :
  file_failure encoding fs file_path = Some line →
  EvLog ERROR line ∈ (process_file file_path encoding fs).2
  ∧ EvLog ERROR (msg_failed file_path)
      ∈ (process_file file_path encoding fs).2.
Proof.
  unfold file_failure. rewrite process_file_unfold. simpl.
  remove_bom_cases file_path encoding fs; simpl.
  - rewrite Hfile, Hstarts. discriminate.
  - rewrite Hfile, Hstarts. simpl. intros [= <-]. split; elem_here.
  - apply read_result_Ok in Hread as [wr Hf].
    rewrite Hf, Hstarts. discriminate.
  - apply read_result_Ok in Hread as [wr Hf].
    rewrite Hf. intros [= <-]. split; elem_here.
  - unfold read_result in Hread.
    destruct (fs !! file_path) as [[[] w c| |]|]; try discriminate.
    injection Hread as <-. intros [= <-]. split; elem_here.
Qed.

Lemma entry_processed_mono (encoding : string) (recursive : bool)
    (fs fs' : filesystem) (t t' : list event) (p : path) :
  same_locked fs fs' → t ⊆ t' →
  entry_processed encoding recursive fs' t p →
  entry_processed encoding recursive fs t' p.
Proof.
  intros Hl Hsub. pose proof (same_locked_same_shape _ _ Hl) as Hs.
  unfold entry_processed.
  rewrite (same_shape_is_file fs fs' p Hs), (same_shape_is_dir fs fs' p Hs),
    (same_locked_file_failure encoding fs fs' p Hl).
  intros [H1 H2]. split; [by apply Hsub |].
  destruct (is_file fs p).
  - destruct H2 as [H2 H3]. split; [by apply Hsub |].
    intros line Hline. destruct (H3 line Hline). split; by apply Hsub.
  - destruct (is_dir fs p && recursive); [by apply Hsub | done].
Qed.

Lemma directory_handled_mono (encoding : string) (recursive : bool)
    (fs fs' : filesystem) (t t' : list event) (q : path) :
  same_locked fs fs' → t ⊆ t' →
  directory_handled encoding recursive fs' t q →
  directory_handled encoding recursive fs t' q.
Proof.
  intros Hl Hsub. unfold directory_handled.
  rewrite (same_shape_listdir fs fs' q (same_locked_same_shape _ _ Hl)).
  destruct (listdir_result fs q); [intros H name Hn |]; auto.
  by eapply entry_processed_mono, H.
Qed.

Section loop_run_visits.
Context (encoding : string) (recursive : bool).

(** Every item of the loop is processed, whatever happens to the items
    before it. *)
Lemma loop_run_processes_all (d : path) (items : list string)
    (fs fs' : filesystem) (t : list event) :
  loop_run encoding recursive d items fs fs' t →
  ∀ i, i ∈ items → entry_processed encoding recursive fs t (os_path_join d i).
Proof.
  induction 1 as [d fs
                 |d item rest fs fs' t Hf Hrest IHrest
                 |d item rest fs names fs1 t1 fs' t Hf Hd Hrec Hl
                    Hsub IHsub Hrest IHrest
                 |d item rest fs e fs' t Hf Hd Hrec Hl Hrest IHrest
                 |d item rest fs fs' t Hf Hd Hrec Hrest IHrest
                 |d item rest fs fs' t Hf Hd Hrest IHrest];
    intros i Hi; [by apply elem_of_nil in Hi | ..];
    (apply elem_of_cons in Hi as [->|Hi];
     [ unfold entry_processed; rewrite Hf, ?Hd, ?Hrec; simpl;
       split; [by left |]
     | eapply entry_processed_mono; [| | by apply IHrest];
       [ first [ apply process_file_same_locked
               | by eapply loop_run_same_locked
               | apply same_locked_refl ]
       | set_solver ] ]).
  - split.
    + right. apply elem_of_app. left. apply first_event_process_file.
    + intros line Hline.
      destruct (process_file_reports _ _ _ _ Hline) as [H1 H2].
      split; right; apply elem_of_app; by left.
  - set_solver.
  - set_solver.
  - done.
  - done.
Qed.

(** Every directory the run lists is handled. *)
Lemma loop_run_listed (d : path) (items : list string)
    (fs fs' : filesystem) (t : list event) :
  loop_run encoding recursive d items fs fs' t →
  ∀ q, EvListdir q ∈ t → directory_handled encoding recursive fs t q.
Proof.
  induction 1 as [d fs
                 |d item rest fs fs' t Hf Hrest IHrest
                 |d item rest fs names fs1 t1 fs' t Hf Hd Hrec Hl
                    Hsub IHsub Hrest IHrest
                 |d item rest fs e fs' t Hf Hd Hrec Hl Hrest IHrest
                 |d item rest fs fs' t Hf Hd Hrec Hrest IHrest
                 |d item rest fs fs' t Hf Hd Hrest IHrest];
    intros q Hin.
  - by apply elem_of_nil in Hin.
  - apply elem_of_cons in Hin as [Hin|Hin]; [discriminate Hin |].
    apply elem_of_app in Hin as [Hin|Hin].
    { pose proof (process_file_events (os_path_join d item) encoding fs)
        as Hpf.
      rewrite Forall_forall in Hpf.
      destruct (Hpf _ Hin) as (_ & _ & Hne). by destruct (Hne q). }
    eapply directory_handled_mono; [| | by apply IHrest].
    + apply process_file_same_locked.
    + set_solver.
  - apply elem_of_cons in Hin as [Hin|Hin]; [discriminate Hin |].
    apply elem_of_cons in Hin as [Hin|Hin]; [discriminate Hin |].
    apply elem_of_cons in Hin as [Hin|Hin].
    { injection Hin as ->. unfold directory_handled. rewrite Hl.
      intros name Hn.
      eapply entry_processed_mono;
        [apply same_locked_refl |
        | by apply (loop_run_processes_all _ _ _ _ _ Hsub)].
      set_solver. }
    apply elem_of_app in Hin as [Hin|Hin].
    + eapply directory_handled_mono;
        [apply same_locked_refl | | by apply IHsub].
      set_solver.
    + eapply directory_handled_mono; [| | by apply IHrest].
      * by eapply loop_run_same_locked.
      * set_solver.
  - apply elem_of_cons in Hin as [Hin|Hin]; [discriminate Hin |].
    apply elem_of_cons in Hin as [Hin|Hin]; [discriminate Hin |].
    apply elem_of_cons in Hin as [Hin|Hin].
    { injection Hin as ->. unfold directory_handled. rewrite Hl.
      set_solver. }
    apply elem_of_cons in Hin as [Hin|Hin]; [discriminate Hin |].
    eapply directory_handled_mono;
      [apply same_locked_refl | | by apply IHrest].
    set_solver.
  - do 4 (apply elem_of_cons in Hin as [Hin|Hin]; [discriminate Hin |]).
    eapply directory_handled_mono;
      [apply same_locked_refl | | by apply IHrest].
    set_solver.
  - do 3 (apply elem_of_cons in Hin as [Hin|Hin]; [discriminate Hin |]).
    eapply directory_handled_mono;
      [apply same_locked_refl | | by apply IHrest].
    set_solver.
Qed.

(** With listings free of duplicates, no path is examined twice. *)
Lemma loop_run_visited_NoDup (d : path) (items : list string)
    (fs fs' : filesystem) (t : list event) :
  loop_run encoding recursive d items fs fs' t →
  listings_distinct fs → NoDup items → NoDup (visited t).
Proof.
  induction 1 as [d fs
                 |d item rest fs fs' t Hf Hrest IHrest
                 |d item rest fs names fs1 t1 fs' t Hf Hd Hrec Hl
                    Hsub IHsub Hrest IHrest
                 |d item rest fs e fs' t Hf Hd Hrec Hl Hrest IHrest
                 |d item rest fs fs' t Hf Hd Hrec Hrest IHrest
                 |d item rest fs fs' t Hf Hd Hrest IHrest];
    intros Hwf Hnd; [apply NoDup_nil_2 | ..];
    apply NoDup_cons in Hnd as [Hni Hnd];
    assert (os_path_join d item ∉ visited t) as Hfresh
      by (rewrite elem_of_visited; intros Hin;
          destruct (loop_run_events _ _ _ _ _ _ _ Hrest _ _ Hin eq_refl)
            as (i & Hi & Hp);
          apply Hni;
          by rewrite (join_prefix_inj d (os_path_join d item) item i)).
  - simpl. rewrite visited_app, visited_process_file. simpl.
    apply NoDup_cons. split; [done |]. apply IHrest; [| done].
    eapply same_shape_listings_distinct; [| done].
    apply process_file_same_shape.
  - simpl. rewrite visited_app. apply NoDup_cons. split.
    + rewrite elem_of_app. intros [Hin|Hin]; [| done].
      apply elem_of_visited in Hin.
      destruct (loop_run_events _ _ _ _ _ _ _ Hsub _ _ Hin eq_refl)
        as (j & Hj & Hp).
      by apply join_prefix_ne in Hp.
    + apply NoDup_app. split; [| split].
      * apply IHsub; [done |]. apply listdir_result_Ok in Hl.
        by eapply Hwf.
      * intros q Hq1 Hq2. apply elem_of_visited in Hq1, Hq2.
        destruct (loop_run_events _ _ _ _ _ _ _ Hsub _ _ Hq1 eq_refl)
          as (j & Hj & Hp1).
        destruct (loop_run_events _ _ _ _ _ _ _ Hrest _ _ Hq2 eq_refl)
          as (i & Hi & Hp2).
        apply join_join_prefix in Hp1. apply Hni.
        by rewrite (join_prefix_inj d q item i).
      * apply IHrest; [| done].
        eapply same_shape_listings_distinct; [| done].
        by eapply loop_run_same_shape.
  - simpl. apply NoDup_cons. split; [done |]. by apply IHrest.
  - simpl. apply NoDup_cons. split; [done |]. by apply IHrest.
  - simpl. apply NoDup_cons. split; [done |]. by apply IHrest.
Qed.
End loop_run_visits.

(** ** A run is determined by where it starts *)

Lemma loop_run_deterministic (encoding : string) (recursive : bool)
    (d : path) (items : list string) (fs fs1 : filesystem)
    (t1 : list event) :
  loop_run encoding recursive d items fs fs1 t1 →
  ∀ fs2 t2, loop_run encoding recursive d items fs fs2 t2 →
            fs1 = fs2 ∧ t1 = t2.
Proof.
  induction 1 as [d fs
                 |d item rest fs fs' t Hf Hrest IHrest
                 |d item rest fs names fsm tm fs' t Hf Hd Hrec Hl
                    Hsub IHsub Hrest IHrest
                 |d item rest fs e fs' t Hf Hd Hrec Hl Hrest IHrest
                 |d item rest fs fs' t Hf Hd Hrec Hrest IHrest
                 |d item rest fs fs' t Hf Hd Hrest IHrest];
    intros fs2 t2 H2; inversion H2; subst; try congruence.
  - done.
  - match goal with H : loop_run _ _ _ rest _ _ _ |- _ =>
      apply IHrest in H as [-> ->] end. done.
  - assert (names0 = names) as -> by congruence.
    match goal with H : loop_run _ _ _ names _ _ _ |- _ =>
      apply IHsub in H as [-> ->] end.
    match goal with H : loop_run _ _ _ rest _ _ _ |- _ =>
      apply IHrest in H as [-> ->] end. done.
  - assert (e0 = e) as -> by congruence.
    match goal with H : loop_run _ _ _ rest _ _ _ |- _ =>
      apply IHrest in H as [-> ->] end. done.
  - match goal with H : loop_run _ _ _ rest _ _ _ |- _ =>
      apply IHrest in H as [-> ->] end. done.
  - match goal with H : loop_run _ _ _ rest _ _ _ |- _ =>
      apply IHrest in H as [-> ->] end. done.
Qed.

Lemma walk_run_deterministic (encoding : string) (recursive : bool)
    (d : path) (fs fs1 fs2 : filesystem) (t1 t2 : list event) :
  walk_run encoding recursive d fs fs1 t1 →
  walk_run encoding recursive d fs fs2 t2 →
  fs1 = fs2 ∧ t1 = t2.
Proof.
  unfold walk_run. destruct (listdir_result fs d) as [names|e].
  - intros (t1' & H1 & ->) (t2' & H2 & ->).
    by destruct (loop_run_deterministic _ _ _ _ _ _ _ H1 _ _ H2) as [-> ->].
  - by intros [-> ->] [-> ->].
Qed.

(** The result of the walk does not depend on the room on the stack, once
    there is enough of it. *)
Lemma process_directory_result (encoding : string) (recursive : bool)
    (directory : path) (fs : filesystem) :
  ∃ fs' t,
    walk_run encoding recursive directory fs fs' t
    ∧ ∀ fuel, walk_fuel fs directory ≤ fuel →
        process_directory fuel directory encoding recursive fs
        = Some (Ok (), fs', t).
Proof.
  destruct (process_directory_terminates encoding recursive directory fs
              (walk_fuel fs directory)) as (fs' & t & Hrun & Hwalk);
    [done |].
  exists fs', t. split; [done |]. intros fuel Hfuel.
  destruct (process_directory_terminates encoding recursive directory fs
              fuel Hfuel) as (fs2 & t2 & Hrun2 & Hwalk2).
  by destruct (walk_run_deterministic _ _ _ _ _ _ _ _ Hwalk Hwalk2)
    as [-> ->].
Qed.

(** ** The order of the walk *)

Lemma preorder_same_shape (fuel : nat) (fs fs' : filesystem)
    (recursive : bool) :
  same_shape fs fs' →
  ∀ d, preorder fuel fs' recursive d = preorder fuel fs recursive d.
Proof.
  intros Hs. induction fuel as [|n IH]; intros d; [done |]. simpl.
  rewrite (same_shape_listdir fs fs' d Hs).
  destruct (listdir_result fs d) as [names|e]; [| done].
  apply flat_map_ext. intros name. unfold preorder_item.
  by rewrite (same_shape_is_file fs fs' _ Hs),
    (same_shape_is_dir fs fs' _ Hs), IH.
Qed.

Lemma is_dir_depth (N : nat) (fs : filesystem) (p : path) :
  depth_bounded N fs → is_dir fs p = true → length p ≤ N.
Proof.
  unfold is_dir. intros Hb Hd.
  destruct (fs !! p) as [[|l names|]|] eqn:Hq; try discriminate.
  by eapply Hb.
Qed.

Lemma loop_run_preorder (encoding : string) (recursive : bool) (d : path)
    (items : list string) (fs fs' : filesystem) (t : list event) :
  loop_run encoding recursive d items fs fs' t →
  ∀ N n, depth_bounded N fs → N - length d ≤ n →
  visited t
  = flat_map (preorder_item (preorder n fs recursive) fs recursive d) items.
Proof.
  induction 1 as [d fs
                 |d item rest fs fs' t Hf Hrest IHrest
                 |d item rest fs names fs1 t1 fs' t Hf Hd Hrec Hl
                    Hsub IHsub Hrest IHrest
                 |d item rest fs e fs' t Hf Hd Hrec Hl Hrest IHrest
                 |d item rest fs fs' t Hf Hd Hrec Hrest IHrest
                 |d item rest fs fs' t Hf Hd Hrest IHrest];
    intros N n Hb Hn; [done | ..]; simpl;
    unfold preorder_item at 1; rewrite Hf, ?Hd; simpl.
  - rewrite visited_app, visited_process_file. simpl. f_equal.
    pose proof (process_file_same_shape (os_path_join d item) encoding fs)
      as Hs.
    rewrite (IHrest N n); [| by eapply same_shape_depth_bounded | done].
    apply flat_map_ext. intros name. unfold preorder_item.
    rewrite (same_shape_is_file _ _ _ Hs), (same_shape_is_dir _ _ _ Hs).
    by rewrite (preorder_same_shape n _ _ recursive Hs).
  - pose proof (is_dir_depth N fs _ Hb Hd) as Hlen.
    unfold os_path_join in Hlen. rewrite length_app in Hlen.
    simpl in Hlen.
    destruct n as [|n']; [lia |].
    pose proof (loop_run_same_shape _ _ _ _ _ _ _ Hsub) as Hs.
    rewrite visited_app. rewrite Hrec at 1. f_equal. f_equal.
    + simpl. rewrite Hl. apply (IHsub N n'); [done |].
      unfold os_path_join. rewrite length_app. simpl. lia.
    + rewrite (IHrest N (S n'));
        [| by eapply same_shape_depth_bounded | done].
      apply flat_map_ext. intros name. unfold preorder_item.
      rewrite (same_shape_is_file _ _ _ Hs), (same_shape_is_dir _ _ _ Hs).
      by rewrite (preorder_same_shape (S n') _ _ recursive Hs).
  - rewrite Hrec at 1. f_equal.
    rewrite (IHrest N n Hb Hn).
    destruct n as [|n']; [done |]. simpl. by rewrite Hl.
  - rewrite Hrec at 1. f_equal. by apply (IHrest N n).
  - f_equal. by apply (IHrest N n).
Qed.

(** ** Whole walks *)

Lemma walk_run_handled (encoding : string) (recursive : bool) (d : path)
    (fs fs' : filesystem) (t : list event) :
  walk_run encoding recursive d fs fs' t →
  EvListdir d ∈ t ∧ ∀ q, EvListdir q ∈ t → directory_handled encoding recursive fs t q.
Proof.
  unfold walk_run. destruct (listdir_result fs d) as [names|e] eqn:Hl.
  - intros (t' & Hloop & ->). split; [by left |].
    intros q Hin. apply elem_of_cons in Hin as [Hin|Hin].
    + injection Hin as ->. unfold directory_handled. rewrite Hl.
      intros name Hn.
      eapply entry_processed_mono;
        [apply same_locked_refl |
        | by apply (loop_run_processes_all _ _ _ _ _ _ _ Hloop)].
      set_solver.
    + eapply directory_handled_mono;
        [apply same_locked_refl |
        | by apply (loop_run_listed _ _ _ _ _ _ _ Hloop)].
      set_solver.
  - intros [-> ->]. split; [by left |].
    intros q Hin. apply elem_of_cons in Hin as [Hin|Hin].
    + injection Hin as ->. unfold directory_handled. rewrite Hl. set_solver.
    + apply elem_of_cons in Hin as [Hin|Hin]; [discriminate Hin |].
      by apply elem_of_nil in Hin.
Qed.

Lemma walk_run_visited (encoding : string) (recursive : bool) (d : path)
    (fs fs' : filesystem) (t : list event) :
  walk_run encoding recursive d fs fs' t →
  visited t = preorder (walk_fuel fs d) fs recursive d
  ∧ (listings_distinct fs → NoDup (visited t)).
Proof.
  unfold walk_run, walk_fuel. simpl.
  destruct (listdir_result fs d) as [names|e] eqn:Hl.
  - intros (t' & Hloop & ->). split.
    + apply (loop_run_preorder _ _ _ _ _ _ _ Hloop (max_depth fs));
        [apply max_depth_bounded | done].
    + intros Hwf. apply (loop_run_visited_NoDup _ _ _ _ _ _ _ Hloop Hwf).
      apply listdir_result_Ok in Hl. by eapply Hwf.
  - intros [-> ->]. split; [done |]. intros _. apply NoDup_nil_2.
Qed.

(** ** One item of a run *)

Section loop_run_items.
Context (encoding : string) (recursive : bool).

Lemma loop_run_split (d : path) (item : string) (rest : list string)
    (fs fs' : filesystem) (t : list event) :
  loop_run encoding recursive d (item :: rest) fs fs' t →
  ∃ fs1 t1 t2,
    loop_run encoding recursive d [item] fs fs1 t1
    ∧ loop_run encoding recursive d rest fs1 fs' t2
    ∧ t = t1 ++ t2.
Proof.
  inversion 1; subst.
  - eexists _, _, _. split; [| split; [done |]].
    + apply loop_file; [done | apply loop_done].
    + simpl. by rewrite app_nil_r.
  - eexists _, _, _. split; [| split; [done |]].
    + eapply loop_descend; [done.. | apply loop_done].
    + simpl. by rewrite app_nil_r.
  - eexists _, _, _. split; [| split; [done |]].
    + eapply loop_descend_fails; [done.. | apply loop_done].
    + done.
  - eexists _, _, _. split; [| split; [done |]].
    + eapply loop_skip; [done.. | apply loop_done].
    + done.
  - eexists _, _, _. split; [| split; [done |]].
    + eapply loop_other; [done.. | apply loop_done].
    + done.
Qed.

(** In a run over distinct items, the turn of item [x] starts from a file
    system that agrees with the initial one on the subtree of [x], and
    what it leaves in that subtree is final. *)
Lemma loop_run_around (d : path) (x : string) (items : list string) :
  ∀ (fs fs' : filesystem) (t : list event),
  loop_run encoding recursive d items fs fs' t →
  NoDup items → x ∈ items →
  ∃ fsa fsb ta,
    (∀ q, os_path_join d x `prefix_of` q → fsa !! q = fs !! q)
    ∧ loop_run encoding recursive d [x] fsa fsb ta
    ∧ (∀ q, os_path_join d x `prefix_of` q → fs' !! q = fsb !! q)
    ∧ ta ⊆ t.
Proof.
  induction items as [|item rest IH]; intros fs fs' t Hrun Hnd Hx;
    [by apply elem_of_nil in Hx |].
  apply NoDup_cons in Hnd as [Hni Hnd].
  apply loop_run_split in Hrun as (fs1 & t1 & t2 & H1 & H2 & ->).
  destruct (decide (x = item)) as [->|Hne].
  - exists fs, fs1, t1. split; [done | split; [done | split]].
    + intros q Hq. apply (loop_run_frame _ _ _ _ _ _ _ H2).
      intros i Hi Hp. apply Hni.
      by rewrite (join_prefix_inj d q item i).
    + intros ev Hev. apply elem_of_app. by left.
  - apply elem_of_cons in Hx as [?|Hx]; [done |].
    destruct (IH fs1 fs' t2 H2 Hnd Hx) as (fsa & fsb & ta & Ha & Hr & Hb & Hs).
    exists fsa, fsb, ta. split; [| split; [done | split; [done |]]].
    + intros q Hq. rewrite (Ha q Hq).
      apply (loop_run_frame _ _ _ _ _ _ _ H1).
      intros i Hi Hp. apply list_elem_of_singleton in Hi as ->.
      apply Hne. by apply (join_prefix_inj d q).
    + intros ev Hev. apply elem_of_app. right. by apply Hs.
Qed.

(** A readable, writable file that a run meets once is stripped of the
    signature it starts with. *)
Lemma loop_run_strips_file (d : path) (x : string) (items : list string)
    (fs fs' : filesystem) (t : list event) (sig B : bytes) :
  loop_run encoding recursive d items fs fs' t →
  NoDup items → x ∈ items →
  BOM_ENCODINGS !! encoding = Some sig →
  fs !! os_path_join d x = Some (File true true B) →
  sig `prefix_of` B →
  fs' !! os_path_join d x
  = Some (File true true (slice_from (length sig) B)).
Proof.
  intros Hrun Hnd Hx He Hf Hp.
  destruct (loop_run_around d x items fs fs' t Hrun Hnd Hx)
    as (fsa & fsb & ta & Ha & Hr & Hb & _).
  rewrite Hb by done. rewrite <- Ha in Hf by done.
  assert (is_file fsa (os_path_join d x) = true) as Hisf
    by (unfold is_file; by rewrite Hf).
  inversion Hr; subst; try congruence.
  match goal with H : loop_run _ _ _ [] _ _ _ |- _ =>
    inversion H; subst end.
  rewrite process_file_unfold. simpl.
  rewrite (remove_bom_stripped _ _ _ B sig Hf He);
    [| by apply startswith_prefix].
  simpl. by rewrite lookup_insert_eq.
Qed.

Lemma is_file_false_dir (fs : filesystem) (p : path) (l : bool)
    (names : list string) :
  fs !! p = Some (Dir l names) →
  is_file fs p = false ∧ is_dir fs p = true.
Proof. intros H. unfold is_file, is_dir. by rewrite H. Qed.
End loop_run_items.

(** In a recursive run, a readable, writable file in a listable
    subdirectory met once is stripped as well. *)
Lemma loop_run_strips_nested (encoding : string) (d : path)
    (sub f2 : string) (items names2 : list string) (fs fs' : filesystem)
    (t : list event) (sig B : bytes) :
  loop_run encoding true d items fs fs' t →
  NoDup items → sub ∈ items →
  BOM_ENCODINGS !! encoding = Some sig →
  fs !! os_path_join d sub = Some (Dir true names2) →
  NoDup names2 → f2 ∈ names2 →
  fs !! os_path_join (os_path_join d sub) f2 = Some (File true true B) →
  sig `prefix_of` B →
  fs' !! os_path_join (os_path_join d sub) f2
  = Some (File true true (slice_from (length sig) B)).
Proof.
  intros Hrun Hnd Hx He Hdir Hnd2 Hf2 Hf Hp.
  destruct (loop_run_around encoding true d sub items fs fs' t Hrun Hnd Hx)
    as (fsa & fsb & ta & Ha & Hr & Hb & _).
  assert (os_path_join d sub `prefix_of` os_path_join (os_path_join d sub) f2)
    as Hunder by (by apply prefix_app_r).
  rewrite Hb by done.
  rewrite <- Ha in Hdir by done. rewrite <- Ha in Hf by done.
  destruct (is_file_false_dir _ _ _ _ Hdir) as [Hisf Hisd].
  pose proof (proj2 (listdir_result_Ok _ _ _) Hdir) as Hl.
  inversion Hr; subst; try congruence.
  match goal with H : loop_run _ _ _ [] _ _ _ |- _ =>
    inversion H; subst end.
  match goal with H : listdir_result _ _ = Ok ?n |- _ =>
    assert (n = names2) as -> by congruence end.
  by eapply loop_run_strips_file.
Qed.

(** ** Runs that do not descend *)

Lemma msg_accessing_not_processing (q p : path) (e e' : exn) :
  msg_error_accessing q e ≠ msg_error_processing p e'.
Proof. unfold msg_error_accessing, msg_error_processing. simpl. discriminate. Qed.

Lemma msg_accessing_not_unsupported (q : path) (e : exn) (encoding : string) :
  msg_error_accessing q e ≠ msg_unsupported encoding.
Proof. unfold msg_error_accessing, msg_unsupported. simpl. discriminate. Qed.

Lemma msg_accessing_not_failed (q p : path) (e : exn) :
  msg_error_accessing q e ≠ msg_failed p.
Proof. unfold msg_error_accessing, msg_failed. simpl. discriminate. Qed.

Lemma process_file_no_directory_error (file_path : path) (encoding : string)
    (fs : filesystem) (q : path) (e : exn) :
  EvLog ERROR (msg_error_accessing q e)
    ∉ (process_file file_path encoding fs).2.
Proof.
  rewrite process_file_unfold. simpl.
  remove_bom_cases file_path encoding fs; simpl;
    rewrite ?elem_of_cons, elem_of_nil;
    intros H; repeat (destruct H as [H|H]; [try discriminate H |]);
    try done;
    injection H as H;
    first [ by apply msg_accessing_not_processing in H
          | by apply msg_accessing_not_unsupported in H
          | by apply msg_accessing_not_failed in H ].
Qed.

Section nonrecursive.
Context (encoding : string).

(** Without recursion a run lists no directory and logs no
    directory-level error. *)
Lemma loop_run_nonrecursive_events (d : path) (items : list string)
    (fs fs' : filesystem) (t : list event) :
  loop_run encoding false d items fs fs' t →
  (∀ q, EvListdir q ∉ t)
  ∧ (∀ q e, EvLog ERROR (msg_error_accessing q e) ∉ t).
Proof.
  induction 1 as [d fs
                 |d item rest fs fs' t Hf Hrest IHrest
                 |d item rest fs names fs1 t1 fs' t Hf Hd Hrec Hl
                    Hsub IHsub Hrest IHrest
                 |d item rest fs e fs' t Hf Hd Hrec Hl Hrest IHrest
                 |d item rest fs fs' t Hf Hd Hrec Hrest IHrest
                 |d item rest fs fs' t Hf Hd Hrest IHrest];
    try discriminate.
  - split; intros; apply not_elem_of_nil.
  - destruct IHrest as [IH1 IH2].
    pose proof (process_file_events (os_path_join d item) encoding fs)
      as Hpf.
    rewrite Forall_forall in Hpf.
    split.
    + intros q Hin. apply elem_of_cons in Hin as [Hin|Hin];
        [discriminate Hin |].
      apply elem_of_app in Hin as [Hin|Hin]; [| by apply (IH1 q)].
      destruct (Hpf _ Hin) as (_ & _ & Hne). by apply (Hne q).
    + intros q e Hin. apply elem_of_cons in Hin as [Hin|Hin];
        [discriminate Hin |].
      apply elem_of_app in Hin as [Hin|Hin]; [| by apply (IH2 q e)].
      by apply process_file_no_directory_error in Hin.
  - destruct IHrest as [IH1 IH2]. split.
    + intros q Hin.
      do 4 (apply elem_of_cons in Hin as [Hin|Hin]; [discriminate Hin |]).
      by apply (IH1 q).
    + intros q e Hin.
      do 4 (apply elem_of_cons in Hin as [Hin|Hin]; [discriminate Hin |]).
      by apply (IH2 q e).
  - destruct IHrest as [IH1 IH2]. split.
    + intros q Hin.
      do 3 (apply elem_of_cons in Hin as [Hin|Hin]; [discriminate Hin |]).
      by apply (IH1 q).
    + intros q e Hin.
      do 3 (apply elem_of_cons in Hin as [Hin|Hin]; [discriminate Hin |]).
      by apply (IH2 q e).
Qed.

(** Without recursion a run changes direct children only. *)
Lemma loop_run_nonrecursive_frame (d : path) (items : list string)
    (fs fs' : filesystem) (t : list event) :
  loop_run encoding false d items fs fs' t →
  ∀ q, (∀ i, i ∈ items → q ≠ os_path_join d i) → fs' !! q = fs !! q.
Proof.
  induction 1 as [d fs
                 |d item rest fs fs' t Hf Hrest IHrest
                 |d item rest fs names fs1 t1 fs' t Hf Hd Hrec Hl
                    Hsub IHsub Hrest IHrest
                 |d item rest fs e fs' t Hf Hd Hrec Hl Hrest IHrest
                 |d item rest fs fs' t Hf Hd Hrec Hrest IHrest
                 |d item rest fs fs' t Hf Hd Hrest IHrest];
    try discriminate; intros q Hq; try done;
    try (apply IHrest; intros i Hi; apply Hq; by right).
  rewrite IHrest by (intros i Hi; apply Hq; by right).
  apply process_file_frame. apply Hq. by left.
Qed.

(** Without recursion a subdirectory is skipped, and the skip is logged
    at informational level. *)
Lemma loop_run_nonrecursive_skips (d : path) (items : list string)
    (fs fs' : filesystem) (t : list event) :
  loop_run encoding false d items fs fs' t →
  ∀ x l names, x ∈ items → fs !! os_path_join d x = Some (Dir l names) →
  EvLog INFO (msg_skipping (os_path_join d x)) ∈ t.
Proof.
  induction 1 as [d fs
                 |d item rest fs fs' t Hf Hrest IHrest
                 |d item rest fs names fs1 t1 fs' t Hf Hd Hrec Hl
                    Hsub IHsub Hrest IHrest
                 |d item rest fs e fs' t Hf Hd Hrec Hl Hrest IHrest
                 |d item rest fs fs' t Hf Hd Hrec Hrest IHrest
                 |d item rest fs fs' t Hf Hd Hrest IHrest];
    try discriminate; intros x l names Hx Hdir;
    [by apply elem_of_nil in Hx | ..];
    destruct (is_file_false_dir _ _ _ _ Hdir) as [Hxf Hxd];
    (apply elem_of_cons in Hx as [->|Hx]; [try congruence |]).
  - apply elem_of_cons. right. apply elem_of_app. right.
    apply (IHrest x l names Hx).
    eapply same_shape_dir; [apply process_file_same_shape | done].
  - set_solver.
  - do 4 (apply elem_of_cons; right). by apply (IHrest x l names Hx).
  - do 3 (apply elem_of_cons; right). by apply (IHrest x l names Hx).
Qed.
End nonrecursive.

(** ** The tree walker *)


(** C10 (amended: the stack has room for the nesting of the tree).  On
    every file system (a finite map from paths, so a finite tree without
    cycles) whose directories list no name twice, for every directory,
    encoding and flag, [process_directory] returns normally whatever the
    room on the stack.  With the room [walk_fuel] computes for the nesting
    of the tree, and with any larger room, the result is always the same:
    the paths examined, in order, are the depth-first pre-order of the tree
    below the directory; no path is examined twice; and every name listed
    by a directory the walk lists is examined. *)
Theorem walk_terminates_visiting_once (directory : path) (encoding : string)
    (recursive : bool) (fs : filesystem) :
  listings_distinct fs →
  (∀ fuel, 0 < fuel →
     ∃ fs' t, process_directory fuel directory encoding recursive fs
              = Some (Ok (), fs', t))
  ∧ ∃ fs' t,
      (∀ fuel, walk_fuel fs directory ≤ fuel →
         process_directory fuel directory encoding recursive fs
         = Some (Ok (), fs', t))
      ∧ NoDup (visited t)
      ∧ (∀ q names name,
           EvListdir q ∈ t → listdir_result fs q = Ok names → name ∈ names →
           os_path_join q name ∈ visited t)
      ∧ visited t
        = preorder (walk_fuel fs directory) fs recursive directory.
Proof.
  intros Hwf. split.
  { intros fuel Hpos. by apply process_directory_returns. }
  destruct (process_directory_result encoding recursive directory fs)
    as (fs' & t & Hwalk & Hrun).
  exists fs', t. split; [done |].
  destruct (walk_run_visited _ _ _ _ _ _ Hwalk) as [Hpre Hnd].
  destruct (walk_run_handled _ _ _ _ _ _ Hwalk) as [_ Hall].
  split; [by apply Hnd | split; [| done]].
  intros q names name Hin Hl Hn. apply elem_of_visited.
  specialize (Hall q Hin). unfold directory_handled in Hall.
  rewrite Hl in Hall. by destruct (Hall name Hn).
Qed.

(** C7 (recursion boundary).  Let directory [D] list, without duplicates,
    a readable and writable file [f1] whose content starts with the
    signature, and a listable subdirectory [sub] that lists, without
    duplicates, such a file [f2].  Walking [D] without recursion returns
    normally, strips [f1], leaves everything at or below [sub] (so [f2])
    as it was, never lists [sub], logs that it skips [sub] at
    informational level and logs no directory error.  Walking [D]
    recursively returns normally and strips both [f1] and [f2]. *)
Theorem walk_recursion_boundary (D : path) (f1 sub f2 : string)
    (names names2 : list string) (sig r1 r2 : bytes) (encoding : string)
    (fs : filesystem) :
  BOM_ENCODINGS !! encoding = Some sig →
  fs !! D = Some (Dir true names) → NoDup names →
  f1 ∈ names → sub ∈ names →
  fs !! os_path_join D f1 = Some (File true true (sig ++ r1)) →
  fs !! os_path_join D sub = Some (Dir true names2) → NoDup names2 →
  f2 ∈ names2 →
  fs !! os_path_join (os_path_join D sub) f2
    = Some (File true true (sig ++ r2)) →
  (∃ fs' t,
     (∀ fuel, walk_fuel fs D ≤ fuel →
        process_directory fuel D encoding false fs = Some (Ok (), fs', t))
     ∧ fs' !! os_path_join D f1 = Some (File true true r1)
     ∧ fs' !! os_path_join (os_path_join D sub) f2
       = Some (File true true (sig ++ r2))
     ∧ (∀ q, os_path_join D sub `prefix_of` q → fs' !! q = fs !! q)
     ∧ (∀ q, EvListdir q ∈ t → q = D)
     ∧ EvLog INFO (msg_skipping (os_path_join D sub)) ∈ t
     ∧ (∀ q e, EvLog ERROR (msg_error_accessing q e) ∉ t))
  ∧ (∃ fs' t,
       (∀ fuel, walk_fuel fs D ≤ fuel →
          process_directory fuel D encoding true fs = Some (Ok (), fs', t))
       ∧ fs' !! os_path_join D f1 = Some (File true true r1)
       ∧ fs' !! os_path_join (os_path_join D sub) f2
         = Some (File true true r2)).
Proof.
  intros He HD Hnd Hf1 Hsub Hfile1 Hdir Hnd2 Hf2 Hfile2.
  pose proof (proj2 (listdir_result_Ok _ _ _) HD) as Hl.
  assert (∀ r, slice_from (length sig) (sig ++ r) = r) as Hslice
    by (intros r; unfold slice_from; apply drop_app_length).
  split.
  - destruct (process_directory_result encoding false D fs)
      as (fs' & t & Hwalk & Hrun).
    exists fs', t. split; [done |].
    unfold walk_run in Hwalk. rewrite Hl in Hwalk.
    destruct Hwalk as (t' & Hloop & ->).
    destruct (loop_run_nonrecursive_events _ _ _ _ _ _ Hloop) as [Hnl Hne].
    assert (∀ q, os_path_join D sub `prefix_of` q → fs' !! q = fs !! q)
      as Hframe.
    { intros q Hq. destruct (decide (q = os_path_join D sub)) as [->|Hq'].
      - rewrite Hdir. eapply same_shape_dir; [| done].
        by eapply loop_run_same_shape.
      - apply (loop_run_nonrecursive_frame _ _ _ _ _ _ Hloop).
        intros i Hi ->. apply Hq'. f_equal.
        symmetry. by apply (join_prefix_inj D (os_path_join D i)). }
    split; [| split; [| split; [done | split; [| split]]]].
    + rewrite <- (Hslice r1).
      eapply loop_run_strips_file; [done.. |]. by apply prefix_app_r.
    + rewrite <- Hfile2. apply Hframe. by apply prefix_app_r.
    + intros q Hin. apply elem_of_cons in Hin as [Hin|Hin];
        [by injection Hin | by apply Hnl in Hin].
    + apply elem_of_cons. right.
      by eapply loop_run_nonrecursive_skips.
    + intros q e Hin. apply elem_of_cons in Hin as [Hin|Hin];
        [discriminate Hin | by apply Hne in Hin].
  - destruct (process_directory_result encoding true D fs)
      as (fs' & t & Hwalk & Hrun).
    exists fs', t. split; [done |].
    unfold walk_run in Hwalk. rewrite Hl in Hwalk.
    destruct Hwalk as (t' & Hloop & ->). split.
    + rewrite <- (Hslice r1).
      eapply loop_run_strips_file; [done.. |]. by apply prefix_app_r.
    + rewrite <- (Hslice r2).
      eapply (loop_run_strips_nested encoding D sub f2 names names2);
        [done.. |]. by apply prefix_app_r.
Qed.

(** ** The walker on concrete trees *)

Lemma tree_fs_listings_distinct : listings_distinct tree_fs.
Proof.
  intros q l names. unfold tree_fs.
  rewrite !lookup_insert, lookup_empty.
  repeat (destruct (decide (_ = q)) as [<-|?];
          [intros [= <- <-] || discriminate |]);
    [.. | discriminate];
    apply (bool_decide_unpack _); vm_compute; exact I.
Qed.

Lemma walk_recursion_boundary_tree :
  (∃ fs' t,
     (∀ fuel, walk_fuel tree_fs ["D"] ≤ fuel →
        process_directory fuel ["D"] "utf-8" false tree_fs
        = Some (Ok (), fs', t))
     ∧ fs' !! ["D"; "f1"] = Some (File true true [x48])
     ∧ fs' !! ["D"; "sub"; "f2"] = Some (File true true (BOM_UTF8 ++ [x49]))
     ∧ (∀ q, ["D"; "sub"] `prefix_of` q → fs' !! q = tree_fs !! q)
     ∧ (∀ q, EvListdir q ∈ t → q = ["D"])
     ∧ EvLog INFO (msg_skipping ["D"; "sub"]) ∈ t
     ∧ (∀ q e, EvLog ERROR (msg_error_accessing q e) ∉ t))
  ∧ (∃ fs' t,
       (∀ fuel, walk_fuel tree_fs ["D"] ≤ fuel →
          process_directory fuel ["D"] "utf-8" true tree_fs
          = Some (Ok (), fs', t))
       ∧ fs' !! ["D"; "f1"] = Some (File true true [x48])
       ∧ fs' !! ["D"; "sub"; "f2"] = Some (File true true [x49])).
Proof.
  apply (walk_recursion_boundary ["D"] "f1" "sub" "f2" ["f1"; "sub"] ["f2"]
           BOM_UTF8 [x48] [x49] "utf-8" tree_fs).
  - vm_compute. reflexivity.
  - vm_compute. reflexivity.
  - apply (bool_decide_unpack _). vm_compute. exact I.
  - apply (bool_decide_unpack _). vm_compute. exact I.
  - apply (bool_decide_unpack _). vm_compute. exact I.
  - vm_compute. reflexivity.
  - vm_compute. reflexivity.
  - apply (bool_decide_unpack _). vm_compute. exact I.
  - apply (bool_decide_unpack _). vm_compute. exact I.
  - vm_compute. reflexivity.
Defined.

Lemma walk_terminates_visiting_once_tree :
  (∀ fuel, 0 < fuel →
     ∃ fs' t, process_directory fuel ["D"] "utf-8" true tree_fs
              = Some (Ok (), fs', t))
  ∧ ∃ fs' t,
      (∀ fuel, walk_fuel tree_fs ["D"] ≤ fuel →
         process_directory fuel ["D"] "utf-8" true tree_fs
         = Some (Ok (), fs', t))
      ∧ NoDup (visited t)
      ∧ (∀ q names name,
           EvListdir q ∈ t → listdir_result tree_fs q = Ok names →
           name ∈ names → os_path_join q name ∈ visited t)
      ∧ visited t = preorder (walk_fuel tree_fs ["D"]) tree_fs true ["D"].
Proof.
  apply (walk_terminates_visiting_once ["D"] "utf-8" true tree_fs).
  apply tree_fs_listings_distinct.
Defined.

(** The recursive walk of [tree_fs], evaluated: three paths examined, in
    depth-first order, both files stripped. *)
Example walk_tree_fs_recursive :
  walk_fuel tree_fs ["D"] = 3
  ∧ preorder 3 tree_fs true ["D"] = [["D"; "f1"]; ["D"; "sub"]; ["D"; "sub"; "f2"]]
  ∧ match process_directory 3 ["D"] "utf-8" true tree_fs with
    | Some (r, fs', t) =>
        r = Ok ()
        ∧ visited t = [["D"; "f1"]; ["D"; "sub"]; ["D"; "sub"; "f2"]]
        ∧ fs' !! ["D"; "f1"] = Some (File true true [x48])
        ∧ fs' !! ["D"; "sub"; "f2"] = Some (File true true [x49])
    | None => False
    end.
Proof. vm_compute. repeat split. Qed.

(** ** A walk that exhausts the stack *)

Lemma loop_body_file (walk : path → MF unit) (directory : path)
    (encoding : string) (recursive : bool) (item : string)
    (fs : filesystem) :
  is_file fs (os_path_join directory item) = true →
  loop_body walk directory encoding recursive item fs
  = Some (Ok (), (process_file (os_path_join directory item) encoding fs).1.2,
          EvIsfile (os_path_join directory item)
          :: (process_file (os_path_join directory item) encoding fs).2).
Proof.
  intros Hf.
  unfold loop_body, mbind, MF_bind, lift, os_path_isfile. rewrite Hf.
  pose proof (process_file_never_raises (os_path_join directory item)
                encoding fs) as Hok.
  destruct (process_file (os_path_join directory item) encoding fs)
    as [[r0 fs0] t0].
  simpl in Hok. by subst r0.
Qed.

Lemma loop_body_descend (walk : path → MF unit) (directory : path)
    (encoding : string) (item : string) (fs : filesystem) :
  is_dir fs (os_path_join directory item) = true →
  loop_body walk directory encoding true item fs
  = match walk (os_path_join directory item) fs with
    | Some (r, fs', t) =>
        Some (r, fs',
              EvIsfile (os_path_join directory item)
              :: EvIsdir (os_path_join directory item) :: t)
    | None => None
    end.
Proof.
  intros Hd.
  assert (is_file fs (os_path_join directory item) = false) as Hf.
  { unfold is_dir in Hd. unfold is_file.
    by destruct (fs !! os_path_join directory item) as [[]|]. }
  unfold loop_body, mbind, MF_bind, lift, os_path_isfile, os_path_isdir.
  rewrite Hf, Hd. simpl.
  by destruct (walk (os_path_join directory item) fs) as [[[r fs1] t1]|].
Qed.

Lemma process_file_empty (file_path : path) (encoding : string)
    (fs : filesystem) :
  fs !! file_path = Some (File true true []) →
  (process_file file_path encoding fs).1.2 = fs.
Proof.
  intros Hf. rewrite process_file_unfold. simpl.
  remove_bom_cases file_path encoding fs; simpl; try done.
  rewrite Hf in Hfile. injection Hfile as <-.
  pose proof (signature_nonempty _ _ Henc) as Hpos.
  destruct sig; [simpl in Hpos; lia | discriminate Hstarts].
Qed.

Lemma chain_dir_0 (d : path) : chain_dir d 0 = d.
Proof. unfold chain_dir. simpl. apply app_nil_r. Qed.

Lemma chain_dir_S (d : path) (k : nat) :
  chain_dir d (S k) = chain_dir (os_path_join d "sub") k.
Proof. unfold chain_dir, os_path_join. simpl. by rewrite <- app_assoc. Qed.

Lemma chain_dir_length (d : path) (k : nat) :
  length (chain_dir d k) = length d + k.
Proof. unfold chain_dir. by rewrite length_app, length_replicate. Qed.

(** On a chain nested deeper than the stack has room for, the directory
    that attempts the first descent without room logs the
    [RecursionError] and abandons the rest of its entries. *)
Lemma walk_cut_short (encoding : string) (m : nat) :
  ∀ (d : path) (fs : filesystem),
  (∀ k, k ≤ m → fs !! chain_dir d k = Some (Dir true ["sub"; "f.txt"])) →
  (∀ k, k < m →
        fs !! os_path_join (chain_dir d k) "f.txt"
        = Some (File true true [])) →
  is_dir fs (chain_dir d (S m)) = true →
  ∃ t, process_directory (S m) d encoding true fs = Some (Ok (), fs, t)
       ∧ EvListdir (chain_dir d m) ∈ t
       ∧ (os_path_join (chain_dir d m) "f.txt" ∉ visited t)
       ∧ EvLog ERROR
           (msg_unexpected_directory (chain_dir d m) RecursionError) ∈ t.
Proof.
  induction m as [|m IH]; intros d fs Hdirs Hfiles Hlast.
  - pose proof (Hdirs 0 ltac:(lia)) as Hd0. rewrite chain_dir_0 in Hd0.
    rewrite chain_dir_S, chain_dir_0 in Hlast.
    rewrite process_directory_S.
    unfold try_except_F, mbind at 1, MF_bind at 1, lift, os_listdir.
    rewrite (proj2 (listdir_result_Ok _ _ _) Hd0).
    cbn [for_each]. unfold mbind at 1, MF_bind at 1.
    rewrite (loop_body_descend _ _ _ _ _ Hlast). cbn [call].
    eexists. split; [reflexivity |]. rewrite chain_dir_0.
    split; [by left | split; [| elem_here]].
    rewrite elem_of_visited. intros Hin.
    repeat (apply elem_of_cons in Hin as [Hin|Hin];
            [by simplify_eq |]).
    by apply elem_of_nil in Hin.
  - pose proof (Hdirs 0 ltac:(lia)) as Hd0. rewrite chain_dir_0 in Hd0.
    pose proof (Hdirs 1 ltac:(lia)) as Hd1.
    rewrite chain_dir_S, chain_dir_0 in Hd1.
    pose proof (Hfiles 0 ltac:(lia)) as Hf0. rewrite chain_dir_0 in Hf0.
    destruct (IH (os_path_join d "sub") fs) as (t1 & Hrun & Hin1 & Hni1 & Hl1).
    { intros k Hk. rewrite <- chain_dir_S. apply Hdirs. lia. }
    { intros k Hk. rewrite <- chain_dir_S. apply Hfiles. lia. }
    { by rewrite <- chain_dir_S. }
    rewrite process_directory_S.
    unfold try_except_F, mbind at 1, MF_bind at 1, lift, os_listdir.
    rewrite (proj2 (listdir_result_Ok _ _ _) Hd0).
    cbn [for_each]. unfold mbind at 1, MF_bind at 1.
    rewrite loop_body_descend by (unfold is_dir; by rewrite Hd1).
    rewrite call_room by lia. rewrite Hrun.
    unfold mbind at 1, MF_bind at 1.
    rewrite loop_body_file by (unfold is_file; by rewrite Hf0).
    rewrite (process_file_empty _ _ _ Hf0).
    unfold mret, MF_ret. eexists. split; [reflexivity |].
    rewrite !chain_dir_S.
    split; [| split].
    + right. do 2 right. apply elem_of_app. by left.
    + rewrite !visited_app. simpl. rewrite visited_process_file. simpl.
      intros Hin. apply elem_of_cons in Hin as [Hin|Hin].
      { apply (f_equal length) in Hin. unfold os_path_join in Hin.
        rewrite !length_app, chain_dir_length in Hin. simpl in Hin.
        rewrite length_app in Hin. simpl in Hin. lia. }
      apply elem_of_app in Hin as [Hin|Hin]; [done |].
      apply elem_of_cons in Hin as [Hin|Hin]; [| by apply elem_of_nil in Hin].
      apply (f_equal length) in Hin. unfold os_path_join in Hin.
      rewrite !length_app, chain_dir_length in Hin. simpl in Hin.
      rewrite length_app in Hin. simpl in Hin. lia.
    + right. do 2 right. apply elem_of_app. by left.
Qed.

Lemma chain_fs_dir (n : nat) :
  ∀ (d : path) (k : nat), k < n →
  chain_fs n d !! chain_dir d k = Some (Dir true ["sub"; "f.txt"]).
Proof.
  induction n as [|n IH]; intros d k Hk; [lia |]. simpl.
  destruct k as [|k].
  - rewrite chain_dir_0. apply lookup_insert_eq.
  - rewrite !lookup_insert_ne.
    + rewrite chain_dir_S. apply IH. lia.
    + unfold chain_dir, os_path_join. intros H.
      apply app_inv_head in H. discriminate H.
    + intros H. apply (f_equal length) in H.
      rewrite chain_dir_length in H. lia.
Qed.

Lemma chain_fs_last (n : nat) :
  ∀ d : path, is_dir (chain_fs n d) (chain_dir d n) = true.
Proof.
  induction n as [|n IH]; intros d; unfold is_dir; simpl.
  - by rewrite chain_dir_0, lookup_insert_eq.
  - rewrite !lookup_insert_ne.
    + rewrite chain_dir_S. apply IH.
    + unfold chain_dir, os_path_join. intros H.
      apply app_inv_head in H. discriminate H.
    + intros H. apply (f_equal length) in H.
      rewrite chain_dir_length in H. lia.
Qed.

Lemma chain_fs_file (n : nat) :
  ∀ (d : path) (k : nat), k ≤ n →
  chain_fs n d !! os_path_join (chain_dir d k) "f.txt"
  = Some (File true true []).
Proof.
  assert (∀ d : path, d ≠ os_path_join d "f.txt") as Hne.
  { intros d H. apply (f_equal length) in H. unfold os_path_join in H.
    rewrite length_app in H. simpl in H. lia. }
  induction n as [|n IH]; intros d k Hk; simpl.
  - assert (k = 0) as -> by lia. rewrite chain_dir_0.
    rewrite lookup_insert_ne by apply Hne. apply lookup_insert_eq.
  - destruct k as [|k].
    + rewrite chain_dir_0.
      rewrite lookup_insert_ne by apply Hne. apply lookup_insert_eq.
    + rewrite !lookup_insert_ne.
      * rewrite chain_dir_S. apply IH. lia.
      * unfold chain_dir, os_path_join. rewrite <- app_assoc. intros H.
        apply app_inv_head in H. discriminate H.
      * intros H. apply (f_equal length) in H. unfold os_path_join in H.
        rewrite length_app, chain_dir_length in H. simpl in H. lia.
Qed.

Lemma chain_fs_listings_distinct (n : nat) :
  ∀ d : path, listings_distinct (chain_fs n d).
Proof.
  induction n as [|n IH]; intros d q l names; simpl;
    rewrite !lookup_insert_Some.
  - intros [[_ [= <- <-]]|[_ [[_ ?]|[_ H]]]]; [| done | done].
    apply NoDup_singleton.
  - intros [[_ [= <- <-]]|[_ [[_ ?]|[_ H]]]]; [| done | by eapply IH].
    apply (bool_decide_unpack _). vm_compute. exact I.
Qed.

(** C10, as stated, fails on a tree nested deeper than the stack has room
    for.  The chain of a thousand nested directories is a finite tree
    without cycles whose directories list no name twice; walked recursively
    with room on the stack for a thousand nested calls, [process_directory]
    returns normally, having listed the directory 999 levels down, which
    lists [sub] and [f.txt]; the descent into [sub] found no room, the
    [RecursionError] was logged by the handler of line 94 for that
    directory, and its entry [f.txt] was never examined. *)
Lemma deep_chain_entry_never_visited :
  listings_distinct (chain_fs 1000 ["D"])
  ∧ ∃ t,
      process_directory 1000 ["D"] "utf-8" true (chain_fs 1000 ["D"])
      = Some (Ok (), chain_fs 1000 ["D"], t)
      ∧ EvListdir (chain_dir ["D"] 999) ∈ t
      ∧ listdir_result (chain_fs 1000 ["D"]) (chain_dir ["D"] 999)
        = Ok ["sub"; "f.txt"]
      ∧ (os_path_join (chain_dir ["D"] 999) "f.txt" ∉ visited t)
      ∧ EvLog ERROR
          (msg_unexpected_directory (chain_dir ["D"] 999) RecursionError)
          ∈ t.
Proof.
  split; [apply chain_fs_listings_distinct |].
  destruct (walk_cut_short "utf-8" 999 ["D"] (chain_fs 1000 ["D"]))
    as (t & Hrun & Hin & Hni & Hlog).
  - intros k Hk. apply chain_fs_dir. lia.
  - intros k Hk. apply chain_fs_file. lia.
  - apply chain_fs_last.
  - exists t. split; [exact Hrun |]. split; [exact Hin |].
    split; [| split; [exact Hni | exact Hlog]].
    apply listdir_result_Ok. apply chain_fs_dir. lia.
Qed.

(** The same on a chain nested one deep, evaluated: with room for one
    call the walk of [D] lists it, finds no room to descend into [sub],
    logs the error and returns without having examined [f.txt]; with room
    for two it examines all three entries. *)
Example walk_chain_fs_cut_short :
  match process_directory 1 ["D"] "utf-8" true (chain_fs 1 ["D"]) with
  | Some (r, fs', t) =>
      r = Ok ()
      ∧ t = [EvListdir ["D"]; EvIsfile ["D"; "sub"]; EvIsdir ["D"; "sub"];
             EvLog ERROR
               "Unexpected error processing directory D: maximum recursion depth exceeded"]
  | None => False
  end
  ∧ match process_directory 2 ["D"] "utf-8" true (chain_fs 1 ["D"]) with
    | Some (r, fs', t) =>
        r = Ok ()
        ∧ visited t = [["D"; "sub"]; ["D"; "sub"; "f.txt"]; ["D"; "f.txt"]]
    | None => False
    end.
Proof. vm_compute. repeat split. Qed.

(** With room for no call at all the embedding gives no result. *)
Example walk_tree_fs_no_room :
  process_directory 0 ["D"] "utf-8" true tree_fs = None.
Proof. reflexivity. Qed.

(** The recursive walk of [faulty_fs], evaluated: the subdirectory that
    cannot be listed and the file that cannot be read are each reported,
    and the file listed after them is still stripped. *)
Example walk_faulty_fs :
  match process_directory 2 ["D"] "utf-8" true faulty_fs with
  | Some (r, fs', t) =>
      r = Ok ()
      ∧ t = [EvListdir ["D"];
             EvIsfile ["D"; "closed"]; EvIsdir ["D"; "closed"];
             EvListdir ["D"; "closed"];
             EvLog ERROR
               "Error accessing directory D/closed: [Errno 13] Permission denied: 'D/closed'";
             EvIsfile ["D"; "locked"]; EvOpen ["D"; "locked"] RB;
             EvLog ERROR
               "Error processing D/locked: [Errno 13] Permission denied: 'D/locked'";
             EvLog ERROR "Failed to process D/locked (see previous errors).";
             EvIsfile ["D"; "f1"]; EvOpen ["D"; "f1"] RB;
             EvLog INFO "BOM found in D/f1 (utf-8)";
             EvOpen ["D"; "f1"] WB; EvWrite ["D"; "f1"] [x48];
             EvLog INFO "BOM removed from D/f1"]
      ∧ fs' !! ["D"; "f1"] = Some (File true true [x48])
      ∧ fs' !! ["D"; "locked"] = Some (File false true hello_content)
  | None => False
  end.
Proof. vm_compute. repeat split. Qed.

(** * Further properties of the code *)

(** ** [remove_bom]: what each returned value means *)

(** X1.  The three returned values of [remove_bom] (lines 18-51) say
    exactly this: [True] when the file is readable and writable, the
    encoding is in the table and the content starts with its signature;
    [False] when the file is readable, the encoding is in the table and the
    content does not start with its signature; [None] in every other case,
    that is when the file cannot be read, or the encoding is not in the
    table, or the content starts with the signature but the file cannot be
    written. *)
Theorem remove_bom_outcome (file_path : path) (encoding : string)
    (fs : filesystem) :
  ((remove_bom file_path encoding fs).1.1 = Ok (Some true) ↔
     ∃ sig B, BOM_ENCODINGS !! encoding = Some sig
              ∧ fs !! file_path = Some (File true true B)
              ∧ sig `prefix_of` B)
  ∧ ((remove_bom file_path encoding fs).1.1 = Ok (Some false) ↔
       ∃ sig B wr, BOM_ENCODINGS !! encoding = Some sig
                   ∧ fs !! file_path = Some (File true wr B)
                   ∧ ¬ sig `prefix_of` B)
  ∧ ((remove_bom file_path encoding fs).1.1 = Ok None ↔
       (∀ wr B, fs !! file_path ≠ Some (File true wr B))
       ∨ (∃ wr B, fs !! file_path = Some (File true wr B)
                  ∧ BOM_ENCODINGS !! encoding = None)
       ∨ (∃ sig B, BOM_ENCODINGS !! encoding = Some sig
                   ∧ fs !! file_path = Some (File true false B)
                   ∧ sig `prefix_of` B)).
Proof.
  remove_bom_cases file_path encoding fs; simpl.
  - apply startswith_prefix in Hstarts.
    split; [| split].
    + split; [intros _; by exists sig, B |done].
    + split; [done |]. intros (s & B' & wr & ? & ? & Hn). by simplify_eq.
    + split; [done |].
      intros [Hno|[(wr & B' & ? & ?)|(s & B' & ? & ? & ?)]];
        [by destruct (Hno true B) | congruence | congruence].
  - apply startswith_prefix in Hstarts.
    split; [| split].
    + split; [done |]. intros (s & B' & ? & ? & ?). congruence.
    + split; [done |]. intros (s & B' & wr & ? & ? & Hn). by simplify_eq.
    + split; [| done]. intros _. right. right. by exists sig, B.
  - apply startswith_false in Hstarts.
    apply read_result_Ok in Hread as [wr Hf].
    split; [| split].
    + split; [done |]. intros (s & B' & ? & ? & ?). by simplify_eq.
    + split; [| done]. intros _. by exists sig, B, wr.
    + split; [done |].
      intros [Hno|[(wr' & B' & ? & ?)|(s & B' & ? & ? & ?)]];
        [by destruct (Hno wr B) | congruence | by simplify_eq].
  - apply read_result_Ok in Hread as [wr Hf].
    split; [| split].
    + split; [done |]. intros (s & B' & ? & ? & ?). congruence.
    + split; [done |]. intros (s & B' & wr' & ? & ? & ?). congruence.
    + split; [| done]. intros _. right. left. by exists wr, B.
  - assert (∀ wr B, fs !! file_path ≠ Some (File true wr B)) as Hno.
    { intros wr B Hf.
      assert (read_result fs file_path = Ok B) as Hr
        by (apply read_result_Ok; by exists wr).
      congruence. }
    split; [| split].
    + split; [done |]. intros (s & B' & ? & Hf & ?). by destruct (Hno _ _ Hf).
    + split; [done |].
      intros (s & B' & wr' & ? & Hf & ?). by destruct (Hno _ _ Hf).
    + split; [| done]. intros _. by left.
Qed.

(** X4.  [remove_bom] returns [None] exactly when it logged a line at
    error level, and exactly then [process_file] (lines 54-69) adds its
    line "Failed to process ...": a failure is never silent, and a
    success never logs an error. *)
Theorem remove_bom_none_iff_error_logged (file_path : path)
    (encoding : string) (fs : filesystem) :
  ((remove_bom file_path encoding fs).1.1 = Ok None ↔
     ∃ msg, EvLog ERROR msg ∈ (remove_bom file_path encoding fs).2)
  ∧ ((remove_bom file_path encoding fs).1.1 = Ok None ↔
       EvLog ERROR (msg_failed file_path)
         ∈ (process_file file_path encoding fs).2)
  ∧ ((remove_bom file_path encoding fs).1.1 ≠ Ok None →
       ∀ msg, EvLog ERROR msg ∉ (process_file file_path encoding fs).2).
Proof.
  rewrite process_file_unfold. simpl.
  remove_bom_cases file_path encoding fs; simpl.
  - split; [| split].
    + split; [done |]. intros [msg Hin].
      repeat (apply elem_of_cons in Hin as [Hin|Hin]; [discriminate Hin |]).
      by apply elem_of_nil in Hin.
    + split; [done |]. intros Hin.
      repeat (apply elem_of_cons in Hin as [Hin|Hin]; [discriminate Hin |]).
      by apply elem_of_nil in Hin.
    + intros _ msg Hin.
      repeat (apply elem_of_cons in Hin as [Hin|Hin]; [discriminate Hin |]).
      by apply elem_of_nil in Hin.
  - split; [| split].
    + split; [| done]. intros _. eexists. do 3 right. by left.
    + split; [| done]. intros _. do 4 right. by left.
    + done.
  - split; [| split].
    + split; [done |]. intros [msg Hin].
      repeat (apply elem_of_cons in Hin as [Hin|Hin]; [discriminate Hin |]).
      by apply elem_of_nil in Hin.
    + split; [done |]. intros Hin.
      repeat (apply elem_of_cons in Hin as [Hin|Hin]; [discriminate Hin |]).
      by apply elem_of_nil in Hin.
    + intros _ msg Hin.
      repeat (apply elem_of_cons in Hin as [Hin|Hin]; [discriminate Hin |]).
      by apply elem_of_nil in Hin.
  - split; [| split].
    + split; [| done]. intros _. eexists. right. by left.
    + split; [| done]. intros _. do 2 right. by left.
    + done.
  - split; [| split].
    + split; [| done]. intros _. eexists. right. by left.
    + split; [| done]. intros _. do 2 right. by left.
    + done.
Qed.

(** X5.  No signature of the table (lines 11-15) is a prefix of a content
    that starts with another one: a file that starts with the BOM of one
    supported encoding is left untouched, with [False] returned, when it is
    processed as any other supported encoding. *)
Theorem remove_bom_other_encoding (encoding1 encoding2 : string)
    (sig1 rest : bytes) (wr : bool) (file_path : path) (fs : filesystem) :
  BOM_ENCODINGS !! encoding1 = Some sig1 →
  encoding2 ∈ encoding_choices →
  encoding1 ≠ encoding2 →
  fs !! file_path = Some (File true wr (sig1 ++ rest)) →
  remove_bom file_path encoding2 fs =
    (Ok (Some false), fs,
     [EvOpen file_path RB; EvLog DEBUG (msg_no_bom file_path encoding2)]).
Proof.
  intros H1 H2 Hne Hf.
  apply BOM_ENCODINGS_supported in H2 as [sig2 H2].
  apply (remove_bom_no_bom _ _ _ (sig1 ++ rest) sig2); [| done |].
  - apply read_result_Ok. by exists wr.
  - apply startswith_false.
    apply BOM_ENCODINGS_lookup in H1, H2.
    destruct H1 as [[-> ->]|[[-> ->]|[-> ->]]],
             H2 as [[-> ->]|[[-> ->]|[-> ->]]];
      try done; intros [k Hk]; discriminate Hk.
Qed.

Lemma remove_bom_other_encoding_utf16 :
  remove_bom ["wide.txt"] "utf-8" utf16_fs =
    (Ok (Some false), utf16_fs,
     [EvOpen ["wide.txt"] RB;
      EvLog DEBUG (msg_no_bom ["wide.txt"] "utf-8")]).
Proof.
  apply (remove_bom_other_encoding "utf-16le" "utf-8" BOM_UTF16_LE
           [x48; x00] true).
  - vm_compute. reflexivity.
  - apply (bool_decide_unpack _). vm_compute. exact I.
  - discriminate.
  - apply lookup_singleton_eq.
Defined.

(** ** The lines the program logs *)

Lemma process_file_vocabulary (file_path : path) (encoding : string)
    (fs : filesystem) (lvl : level) (msg : string) :
  EvLog lvl msg ∈ (process_file file_path encoding fs).2 →
  log_vocabulary encoding lvl msg.
Proof.
  rewrite process_file_unfold. simpl. unfold log_vocabulary.
  remove_bom_cases file_path encoding fs; simpl; intros Hin;
    repeat (apply elem_of_cons in Hin as [Hin|Hin];
            [first [discriminate Hin
                   | injection Hin as -> ->; eauto 12] |]);
    by apply elem_of_nil in Hin.
Qed.

Lemma loop_run_vocabulary (encoding : string) (recursive : bool) (d : path)
    (items : list string) (fs fs' : filesystem) (t : list event) :
  loop_run encoding recursive d items fs fs' t →
  ∀ lvl msg, EvLog lvl msg ∈ t → log_vocabulary encoding lvl msg.
Proof.
  induction 1 as [d fs
                 |d item rest fs fs' t Hf Hrest IHrest
                 |d item rest fs names fs1 t1 fs' t Hf Hd Hrec Hl
                    Hsub IHsub Hrest IHrest
                 |d item rest fs e fs' t Hf Hd Hrec Hl Hrest IHrest
                 |d item rest fs fs' t Hf Hd Hrec Hrest IHrest
                 |d item rest fs fs' t Hf Hd Hrest IHrest];
    intros lvl msg Hin;
    repeat (apply elem_of_cons in Hin as [Hin|Hin];
            [first [discriminate Hin
                   | injection Hin as -> ->; unfold log_vocabulary;
                     eauto 12] |]);
    try (by apply elem_of_nil in Hin);
    try (apply elem_of_app in Hin as [Hin|Hin]);
    eauto using process_file_vocabulary.
Qed.

Lemma walk_run_vocabulary (encoding : string) (recursive : bool) (d : path)
    (fs fs' : filesystem) (t : list event) :
  walk_run encoding recursive d fs fs' t →
  ∀ lvl msg, EvLog lvl msg ∈ t → log_vocabulary encoding lvl msg.
Proof.
  unfold walk_run. destruct (listdir_result fs d) as [names|e].
  - intros (t' & Hloop & ->) lvl msg Hin.
    apply elem_of_cons in Hin as [Hin|Hin]; [discriminate Hin |].
    by eapply loop_run_vocabulary.
  - intros [-> ->] lvl msg Hin.
    apply elem_of_cons in Hin as [Hin|Hin]; [discriminate Hin |].
    apply elem_of_cons in Hin as [Hin|Hin];
      [| by apply elem_of_nil in Hin].
    injection Hin as -> ->. unfold log_vocabulary. eauto 12.
Qed.

Lemma vocabulary_not_unexpected (encoding : string) (lvl : level)
    (msg : string) :
  log_vocabulary encoding lvl msg →
  (∀ p e, msg ≠ msg_unexpected_file p e)
  ∧ (∀ p e, msg ≠ msg_unexpected_directory p e).
Proof.
  unfold log_vocabulary, msg_unexpected_file, msg_unexpected_directory.
  intros [(_ & -> & _)|[(_ & p & ->)|[(_ & p & ->)|[(_ & p & ->)
         |[(_ & p & e & ->)|[(_ & p & ->)|[(_ & p & ->)|(_ & p & e & ->)]]]]]]];
    split; intros p' e'; simpl; discriminate.
Qed.

(** Whatever the room on the stack, a walk that returns leaves a file
    system of the same shape and logs lines of the vocabulary only. *)
Lemma loop_body_invariant (walk : path → MF unit) (directory : path)
    (encoding : string) (recursive : bool) (item : string)
    (fs : filesystem) (r : result unit) (fs' : filesystem)
    (t : list event) :
  (∀ p fs0 r0 fs1 t0, walk p fs0 = Some (r0, fs1, t0) →
                      walk_invariant encoding fs0 r0 fs1 t0) →
  loop_body walk directory encoding recursive item fs = Some (r, fs', t) →
  walk_invariant encoding fs r fs' t.
Proof.
  intros Hwalk.
  destruct (is_file fs (os_path_join directory item)) eqn:Hf.
  - rewrite loop_body_file by done. intros [= <- <- <-].
    split; [by left | split; [apply process_file_same_shape |]].
    intros lvl msg Hin.
    apply elem_of_cons in Hin as [Hin|Hin]; [discriminate Hin |].
    left. by eapply process_file_vocabulary.
  - unfold loop_body, mbind, MF_bind, lift, os_path_isfile, os_path_isdir.
    rewrite Hf.
    destruct (is_dir fs (os_path_join directory item)) eqn:Hd, recursive;
      simpl; rewrite ?Hd; simpl.
    + destruct (walk (os_path_join directory item) fs)
        as [[[r1 fs1] t1]|] eqn:Hw; [| discriminate].
      destruct (Hwalk _ _ _ _ _ Hw) as (Hr & Hs & Hv).
      intros [= <- <- <-]. split; [done | split; [done |]].
      intros lvl msg Hin.
      do 2 (apply elem_of_cons in Hin as [Hin|Hin]; [discriminate Hin |]).
      by apply Hv.
    + intros [= <- <- <-].
      split; [by left | split; [apply same_shape_refl |]].
      intros lvl msg Hin.
      do 3 (apply elem_of_cons in Hin as [Hin|Hin]; [discriminate Hin |]).
      apply elem_of_cons in Hin as [Hin|Hin];
        [| by apply elem_of_nil in Hin].
      injection Hin as -> ->. left. unfold log_vocabulary. eauto 12.
    + intros [= <- <- <-].
      split; [by left | split; [apply same_shape_refl |]].
      intros lvl msg Hin.
      do 3 (apply elem_of_cons in Hin as [Hin|Hin]; [discriminate Hin |]).
      by apply elem_of_nil in Hin.
    + intros [= <- <- <-].
      split; [by left | split; [apply same_shape_refl |]].
      intros lvl msg Hin.
      do 3 (apply elem_of_cons in Hin as [Hin|Hin]; [discriminate Hin |]).
      by apply elem_of_nil in Hin.
Qed.

Lemma for_each_invariant (encoding : string) (items : list string)
    (body : string → MF unit) :
  (∀ item fs0 r0 fs1 t0, body item fs0 = Some (r0, fs1, t0) →
                         walk_invariant encoding fs0 r0 fs1 t0) →
  ∀ fs r fs' t, for_each items body fs = Some (r, fs', t) →
                walk_invariant encoding fs r fs' t.
Proof.
  intros Hbody. induction items as [|item rest IHl]; intros fs r fs' t; simpl.
  - unfold mret, MF_ret. intros [= <- <- <-].
    split; [by left | split; [apply same_shape_refl |]].
    intros lvl msg Hin. by apply elem_of_nil in Hin.
  - unfold mbind at 1. unfold MF_bind at 1.
    destruct (body item fs) as [[[r1 fs1] t1]|] eqn:Hb; [| discriminate].
    destruct (Hbody _ _ _ _ _ Hb) as (Hr & Hs & Hv).
    destruct r1 as [[]|e]; [| by intros [= <- <- <-]].
    destruct (for_each rest body fs1) as [[[r2 fs2] t2]|] eqn:Hrest;
      [| discriminate].
    destruct (IHl _ _ _ _ Hrest) as (Hr2 & Hs2 & Hv2).
    intros [= <- <- <-]. split; [done | split].
    + by eapply same_shape_trans.
    + intros lvl msg Hin. apply elem_of_app in Hin as [Hin|Hin]; eauto.
Qed.

Lemma process_directory_invariant (encoding : string) (recursive : bool)
    (fuel : nat) :
  ∀ (directory : path) (fs : filesystem) r fs' t,
  process_directory fuel directory encoding recursive fs
    = Some (r, fs', t) →
  walk_invariant encoding fs r fs' t.
Proof.
  induction fuel as [|n IH]; intros directory fs r fs' t; [discriminate |].
  rewrite process_directory_S.
  unfold try_except_F, mbind, MF_bind, lift, os_listdir.
  destruct (listdir_result fs directory) as [names|e] eqn:Hl.
  - destruct (for_each names _ fs) as [[[r1 fs1] t1]|] eqn:Hr;
      [| discriminate].
    apply (for_each_invariant encoding) in Hr as (Hr1 & Hs & Hv).
    + destruct Hr1 as [->| ->].
      * intros [= <- <- <-]. split; [by left | split; [done |]].
        intros lvl msg Hin.
        apply elem_of_cons in Hin as [Hin|Hin]; [discriminate Hin |].
        by apply Hv.
      * unfold directory_handler. simpl.
        unfold logging_error, logging_log. intros [= <- <- <-].
        split; [by left | split; [done |]].
        intros lvl msg Hin.
        apply elem_of_cons in Hin as [Hin|Hin]; [discriminate Hin |].
        apply elem_of_app in Hin as [Hin|Hin]; [by apply Hv |].
        apply elem_of_cons in Hin as [Hin|Hin];
          [| by apply elem_of_nil in Hin].
        injection Hin as -> ->. right. eauto.
    + intros item fs0 r0 fs2 t0. apply loop_body_invariant.
      intros p fs3 r3 fs4 t3. destruct n as [|n'].
      * simpl. intros [= <- <- <-].
        split; [by right | split; [apply same_shape_refl |]].
        intros lvl msg Hin. by apply elem_of_nil in Hin.
      * rewrite call_room by lia. apply IH.
  - unfold directory_handler. rewrite (listdir_result_OSError _ _ _ Hl).
    unfold logging_error, logging_log. intros [= <- <- <-].
    split; [by left | split; [apply same_shape_refl |]].
    intros lvl msg Hin.
    apply elem_of_cons in Hin as [Hin|Hin]; [discriminate Hin |].
    apply elem_of_cons in Hin as [Hin|Hin];
      [| by apply elem_of_nil in Hin].
    injection Hin as -> ->. left. unfold log_vocabulary. eauto 12.
Qed.

(** X6.  With room on the stack for the nesting of the tree, the handlers
    of last resort are never used: no call of [process_file] logs
    "Unexpected error processing ..." (line 69), because [remove_bom]
    catches every exception itself, and such a walk logs neither
    "Unexpected error processing directory ..." (line 95) nor the line of
    [process_file], because the only exception that then reaches the
    handlers of [process_directory] is the [OSError] of [os.listdir]. *)
Theorem last_resort_handlers_unused_with_room (encoding : string) :
  (∀ (file_path : path) (fs : filesystem) lvl p e,
     EvLog lvl (msg_unexpected_file p e)
       ∉ (process_file file_path encoding fs).2)
  ∧ (∀ (directory : path) recursive (fs : filesystem),
       ∃ fs' t,
         (∀ fuel, walk_fuel fs directory ≤ fuel →
            process_directory fuel directory encoding recursive fs
            = Some (Ok (), fs', t))
         ∧ ∀ lvl p e,
             (EvLog lvl (msg_unexpected_directory p e) ∉ t)
             ∧ (EvLog lvl (msg_unexpected_file p e) ∉ t)).
Proof.
  split.
  - intros file_path fs lvl p e Hin.
    apply process_file_vocabulary, vocabulary_not_unexpected in Hin
      as [Hin _].
    by destruct (Hin p e).
  - intros directory recursive fs.
    destruct (process_directory_result encoding recursive directory fs)
      as (fs' & t & Hwalk & Hrun).
    exists fs', t. split; [done |]. intros lvl p e.
    split; intros Hin;
      apply (walk_run_vocabulary _ _ _ _ _ _ Hwalk),
        vocabulary_not_unexpected in Hin as [H1 H2].
    + by destruct (H2 p e).
    + by destruct (H1 p e).
Qed.

(** ** What a walk does to the file system *)

Lemma process_file_lookup (file_path : path) (encoding : string)
    (fs : filesystem) :
  (process_file file_path encoding fs).1.2 !! file_path
  = strip_entry encoding (fs !! file_path).
Proof.
  rewrite process_file_unfold. simpl. unfold strip_entry.
  remove_bom_cases file_path encoding fs; simpl.
  - by rewrite lookup_insert_eq, Hfile, ?Henc, ?Hstarts.
  - by rewrite Hfile.
  - apply read_result_Ok in Hread as [wr Hf].
    rewrite Hf, ?Henc, ?Hstarts. destruct wr; by rewrite ?Hstarts.
  - apply read_result_Ok in Hread as [wr Hf].
    rewrite Hf, ?Henc. by destruct wr.
  - destruct (fs !! file_path) as [[[] [] B| |]|] eqn:Hf; try done;
      unfold read_result in Hread; by rewrite Hf in Hread.
Qed.

Lemma strip_entry_not_file (encoding : string) (fs : filesystem) (p : path) :
  is_file fs p = false → strip_entry encoding (fs !! p) = fs !! p.
Proof.
  unfold is_file, strip_entry. by destruct (fs !! p) as [[]|].
Qed.

Lemma strip_entry_suffix (encoding : string) (o : option entry)
    (r w : bool) (B : bytes) :
  o = Some (File r w B) →
  ∃ B', strip_entry encoding o = Some (File r w B') ∧ B' `suffix_of` B.
Proof.
  intros ->. unfold strip_entry.
  destruct r, w; try (by exists B).
  destruct (BOM_ENCODINGS !! encoding) as [sig|]; [| by exists B].
  destruct (startswith B sig); [| by exists B].
  eexists. split; [done |]. unfold slice_from. apply suffix_drop.
Qed.

Lemma process_file_suffix (file_path q : path) (encoding : string)
    (fs : filesystem) (r w : bool) (B : bytes) :
  fs !! q = Some (File r w B) →
  ∃ B', (process_file file_path encoding fs).1.2 !! q = Some (File r w B')
        ∧ B' `suffix_of` B.
Proof.
  intros Hq. destruct (decide (q = file_path)) as [->|Hne].
  - rewrite process_file_lookup. by apply strip_entry_suffix.
  - rewrite process_file_frame by done. by exists B.
Qed.

Lemma loop_run_suffix (encoding : string) (recursive : bool) (d : path)
    (items : list string) (fs fs' : filesystem) (t : list event) :
  loop_run encoding recursive d items fs fs' t →
  ∀ q r w B, fs !! q = Some (File r w B) →
  ∃ B', fs' !! q = Some (File r w B') ∧ B' `suffix_of` B.
Proof.
  induction 1 as [d fs
                 |d item rest fs fs' t Hf Hrest IHrest
                 |d item rest fs names fs1 t1 fs' t Hf Hd Hrec Hl
                    Hsub IHsub Hrest IHrest
                 |d item rest fs e fs' t Hf Hd Hrec Hl Hrest IHrest
                 |d item rest fs fs' t Hf Hd Hrec Hrest IHrest
                 |d item rest fs fs' t Hf Hd Hrest IHrest];
    intros q r w B Hq; try (by apply IHrest).
  - by exists B.
  - destruct (process_file_suffix (os_path_join d item) q encoding fs
                r w B Hq) as (B1 & H1 & Hs1).
    destruct (IHrest q r w B1 H1) as (B2 & H2 & Hs2).
    exists B2. split; [done |]. by etrans.
  - destruct (IHsub q r w B Hq) as (B1 & H1 & Hs1).
    destruct (IHrest q r w B1 H1) as (B2 & H2 & Hs2).
    exists B2. split; [done |]. by etrans.
Qed.

(** With listings free of duplicates, a run leaves at each path it
    examined what one call of [remove_bom] on the initial file system
    leaves there, and leaves every other path alone. *)
Lemma loop_run_effect (encoding : string) (recursive : bool) (d : path)
    (items : list string) (fs fs' : filesystem) (t : list event) :
  loop_run encoding recursive d items fs fs' t →
  listings_distinct fs → NoDup items →
  ∀ p, fs' !! p
       = if decide (p ∈ visited t) then strip_entry encoding (fs !! p)
         else fs !! p.
Proof.
  induction 1 as [d fs
                 |d item rest fs fs' t Hf Hrest IHrest
                 |d item rest fs names fs1 t1 fs' t Hf Hd Hrec Hl
                    Hsub IHsub Hrest IHrest
                 |d item rest fs e fs' t Hf Hd Hrec Hl Hrest IHrest
                 |d item rest fs fs' t Hf Hd Hrec Hrest IHrest
                 |d item rest fs fs' t Hf Hd Hrest IHrest];
    intros Hwf Hnd p; [by rewrite decide_False by apply not_elem_of_nil | ..];
    apply NoDup_cons in Hnd as [Hni Hnd];
    assert (os_path_join d item ∉ visited t) as Hfresh
      by (rewrite elem_of_visited; intros Hin;
          destruct (loop_run_events _ _ _ _ _ _ _ Hrest _ _ Hin eq_refl)
            as (i & Hi & Hp);
          apply Hni;
          by rewrite (join_prefix_inj d (os_path_join d item) item i)).
  - pose proof (process_file_same_shape (os_path_join d item) encoding fs)
      as Hs.
    rewrite (IHrest (same_shape_listings_distinct _ _ Hs Hwf) Hnd p).
    simpl. rewrite visited_app, visited_process_file. simpl.
    destruct (decide (p = os_path_join d item)) as [->|Hne].
    + rewrite decide_False by done. rewrite decide_True by by left.
      apply process_file_lookup.
    + rewrite process_file_frame by done.
      destruct (decide (p ∈ visited t)) as [Hin|Hnin].
      * by rewrite decide_True by by right.
      * rewrite decide_False; [done |].
        intros Hin. by apply elem_of_cons in Hin as [?|?].
  - pose proof (loop_run_same_shape _ _ _ _ _ _ _ Hsub) as Hs.
    apply listdir_result_Ok in Hl.
    rewrite (IHrest (same_shape_listings_distinct _ _ Hs Hwf) Hnd p).
    rewrite (IHsub Hwf (Hwf _ _ _ Hl) p).
    assert (∀ q, q ∈ visited t1 →
                 (q ∉ visited t) ∧ q ≠ os_path_join d item)
      as Hdisj.
    { intros q Hq1. apply elem_of_visited in Hq1.
      destruct (loop_run_events _ _ _ _ _ _ _ Hsub _ _ Hq1 eq_refl)
        as (j & Hj & Hp1).
      split.
      - intros Hq2. apply elem_of_visited in Hq2.
        destruct (loop_run_events _ _ _ _ _ _ _ Hrest _ _ Hq2 eq_refl)
          as (i & Hi & Hp2).
        apply join_join_prefix in Hp1. apply Hni.
        by rewrite (join_prefix_inj d q item i).
      - by apply join_prefix_ne in Hp1. }
    simpl. rewrite visited_app.
    destruct (decide (p = os_path_join d item)) as [->|Hne].
    + rewrite decide_False by done.
      rewrite decide_False by (intros Hin; by destruct (Hdisj _ Hin)).
      rewrite decide_True by by left.
      by rewrite strip_entry_not_file.
    + destruct (decide (p ∈ visited t1)) as [Hin1|Hnin1].
      * destruct (Hdisj p Hin1) as [Hnin _].
        rewrite decide_False by done.
        rewrite decide_True; [done |].
        right. apply elem_of_app. by left.
      * destruct (decide (p ∈ visited t)) as [Hin|Hnin].
        -- rewrite decide_True; [done |].
           right. apply elem_of_app. by right.
        -- rewrite decide_False; [done |].
           intros Hin. apply elem_of_cons in Hin as [?|Hin]; [done |].
           by apply elem_of_app in Hin as [?|?].
  - rewrite (IHrest Hwf Hnd p). simpl.
    destruct (decide (p = os_path_join d item)) as [->|Hne].
    + rewrite decide_False by done. rewrite decide_True by by left.
      by rewrite strip_entry_not_file.
    + destruct (decide (p ∈ visited t)) as [Hin|Hnin].
      * by rewrite decide_True by by right.
      * rewrite decide_False; [done |].
        intros Hin. by apply elem_of_cons in Hin as [?|?].
  - rewrite (IHrest Hwf Hnd p). simpl.
    destruct (decide (p = os_path_join d item)) as [->|Hne].
    + rewrite decide_False by done. rewrite decide_True by by left.
      by rewrite strip_entry_not_file.
    + destruct (decide (p ∈ visited t)) as [Hin|Hnin].
      * by rewrite decide_True by by right.
      * rewrite decide_False; [done |].
        intros Hin. by apply elem_of_cons in Hin as [?|?].
  - rewrite (IHrest Hwf Hnd p). simpl.
    destruct (decide (p = os_path_join d item)) as [->|Hne].
    + rewrite decide_False by done. rewrite decide_True by by left.
      by rewrite strip_entry_not_file.
    + destruct (decide (p ∈ visited t)) as [Hin|Hnin].
      * by rewrite decide_True by by right.
      * rewrite decide_False; [done |].
        intros Hin. by apply elem_of_cons in Hin as [?|?].
Qed.

(** ** What a walk opens and writes *)

Lemma same_shape_file (fs fs' : filesystem) (q : path) (r w : bool)
    (B' : bytes) :
  same_shape fs fs' → fs' !! q = Some (File r w B') →
  ∃ B, fs !! q = Some (File r w B).
Proof.
  intros H Hq. specialize (H q). rewrite Hq in H. simpl in H.
  destruct (fs !! q) as [[r0 w0 B| |]|]; simpl in H; simplify_eq.
  by exists B.
Qed.

Lemma process_file_writes (file_path q : path) (encoding : string)
    (fs : filesystem) (data : bytes) :
  EvWrite q data ∈ (process_file file_path encoding fs).2 →
  q = file_path
  ∧ ∃ B, fs !! file_path = Some (File true true B)
         ∧ data `suffix_of` B ∧ length data < length B.
Proof.
  rewrite process_file_unfold. simpl.
  remove_bom_cases file_path encoding fs; simpl; intros Hin;
    repeat (apply elem_of_cons in Hin as [Hin|Hin];
            [try discriminate Hin |]);
    try (by apply elem_of_nil in Hin).
  injection Hin as -> ->. split; [done |]. exists B. split; [done |].
  apply startswith_prefix in Hstarts.
  pose proof (signature_nonempty _ _ Henc) as Hpos.
  split.
  - unfold slice_from. apply suffix_drop.
  - rewrite (prefix_slice_from _ _ Hstarts) at 2. rewrite length_app. lia.
Qed.

Section loop_run_io.
Context (encoding : string) (recursive : bool).

Lemma loop_run_opens (d : path) (items : list string)
    (fs fs' : filesystem) (t : list event) :
  loop_run encoding recursive d items fs fs' t →
  ∀ q mode, EvOpen q mode ∈ t → is_file fs q = true.
Proof.
  induction 1 as [d fs
                 |d item rest fs fs' t Hf Hrest IHrest
                 |d item rest fs names fs1 t1 fs' t Hf Hd Hrec Hl
                    Hsub IHsub Hrest IHrest
                 |d item rest fs e fs' t Hf Hd Hrec Hl Hrest IHrest
                 |d item rest fs fs' t Hf Hd Hrec Hrest IHrest
                 |d item rest fs fs' t Hf Hd Hrest IHrest];
    intros q mode Hin;
    repeat (apply elem_of_cons in Hin as [Hin|Hin]; [discriminate Hin |]);
    try (by apply elem_of_nil in Hin); try (by eapply IHrest).
  - apply elem_of_app in Hin as [Hin|Hin].
    + pose proof (process_file_events (os_path_join d item) encoding fs)
        as Hpf.
      rewrite Forall_forall in Hpf. destruct (Hpf _ Hin) as [Hp _].
      by rewrite (Hp q eq_refl).
    + rewrite <- (same_shape_is_file fs _ q
                    (process_file_same_shape (os_path_join d item)
                       encoding fs)).
      by eapply IHrest.
  - apply elem_of_app in Hin as [Hin|Hin]; [by eapply IHsub |].
    rewrite <- (same_shape_is_file fs fs1 q
                  (loop_run_same_shape _ _ _ _ _ _ _ Hsub)).
    by eapply IHrest.
Qed.

Lemma loop_run_writes (d : path) (items : list string)
    (fs fs' : filesystem) (t : list event) :
  loop_run encoding recursive d items fs fs' t →
  ∀ q data, EvWrite q data ∈ t →
  ∃ B, fs !! q = Some (File true true B)
       ∧ data `suffix_of` B ∧ length data < length B.
Proof.
  induction 1 as [d fs
                 |d item rest fs fs' t Hf Hrest IHrest
                 |d item rest fs names fs1 t1 fs' t Hf Hd Hrec Hl
                    Hsub IHsub Hrest IHrest
                 |d item rest fs e fs' t Hf Hd Hrec Hl Hrest IHrest
                 |d item rest fs fs' t Hf Hd Hrec Hrest IHrest
                 |d item rest fs fs' t Hf Hd Hrest IHrest];
    intros q data Hin;
    repeat (apply elem_of_cons in Hin as [Hin|Hin]; [discriminate Hin |]);
    try (by apply elem_of_nil in Hin); try (by eapply IHrest).
  - apply elem_of_app in Hin as [Hin|Hin].
    + by apply process_file_writes in Hin as [-> Hin].
    + destruct (IHrest q data Hin) as (B1 & H1 & Hs1 & Hlen1).
      destruct (same_shape_file fs _ q _ _ _
                  (process_file_same_shape (os_path_join d item)
                     encoding fs) H1) as [B HB].
      destruct (process_file_suffix (os_path_join d item) q encoding fs
                  _ _ _ HB) as (B1' & H1' & Hs).
      assert (B1' = B1) as -> by congruence.
      exists B. split; [done |]. split; [by etrans |].
      apply suffix_length in Hs. lia.
  - apply elem_of_app in Hin as [Hin|Hin]; [by eapply IHsub |].
    destruct (IHrest q data Hin) as (B1 & H1 & Hs1 & Hlen1).
    destruct (same_shape_file fs fs1 q _ _ _
                (loop_run_same_shape _ _ _ _ _ _ _ Hsub) H1) as [B HB].
    destruct (loop_run_suffix _ _ _ _ _ _ _ Hsub q _ _ _ HB)
      as (B1' & H1' & Hs).
    assert (B1' = B1) as -> by congruence.
    exists B. split; [done |]. split; [by etrans |].
    apply suffix_length in Hs. lia.
Qed.
End loop_run_io.

(** X9.  A walk opens nothing but what the initial file system holds as a
    regular file, so never a directory, a special file or a missing path;
    and it writes only to files that are readable and writable, and only a
    proper suffix of the content the file had. *)
Theorem walk_opens_only_files (directory : path) (encoding : string)
    (recursive : bool) (fs : filesystem) :
  ∃ fs' t,
    (∀ fuel, walk_fuel fs directory ≤ fuel →
       process_directory fuel directory encoding recursive fs
       = Some (Ok (), fs', t))
    ∧ (∀ q mode, EvOpen q mode ∈ t → is_file fs q = true)
    ∧ (∀ q data, EvWrite q data ∈ t →
         ∃ B, fs !! q = Some (File true true B)
              ∧ data `suffix_of` B ∧ length data < length B).
Proof.
  destruct (process_directory_result encoding recursive directory fs)
    as (fs' & t & Hwalk & Hrun).
  exists fs', t. split; [done |]. unfold walk_run in Hwalk.
  destruct (listdir_result fs directory) as [names|e].
  - destruct Hwalk as (t' & Hloop & ->). split.
    + intros q mode Hin.
      apply elem_of_cons in Hin as [Hin|Hin]; [discriminate Hin |].
      by eapply loop_run_opens.
    + intros q data Hin.
      apply elem_of_cons in Hin as [Hin|Hin]; [discriminate Hin |].
      by eapply loop_run_writes.
  - destruct Hwalk as [-> ->]. split; intros q x Hin;
      repeat (apply elem_of_cons in Hin as [Hin|Hin]; [discriminate Hin |]);
      by apply elem_of_nil in Hin.
Qed.

(** ** The walk without recursion *)

Lemma walk_run_preorder (encoding : string) (recursive : bool) (d : path)
    (fs fs' : filesystem) (t : list event) (N : nat) :
  walk_run encoding recursive d fs fs' t →
  depth_bounded N fs →
  visited t = preorder (S (N - length d)) fs recursive d.
Proof.
  unfold walk_run. simpl.
  destruct (listdir_result fs d) as [names|e] eqn:Hl.
  - intros (t' & Hloop & ->) Hb.
    by apply (loop_run_preorder _ _ _ _ _ _ _ Hloop N).
  - by intros [-> ->] _.
Qed.

Lemma preorder_nonrecursive (n : nat) (fs : filesystem) (d : path) :
  preorder (S n) fs false d
  = match listdir_result fs d with
    | Ok names => os_path_join d <$> names
    | Raise _ => []
    end.
Proof.
  simpl. destruct (listdir_result fs d) as [names|e]; [| done].
  induction names as [|name names IH]; [done |].
  simpl. rewrite IH. unfold preorder_item. by rewrite andb_false_r.
Qed.

(** X10.  Without recursion the walk is shallow: the only directory it
    lists is its own, and the paths it examines are exactly the names that
    directory lists, in the order listed. *)
Theorem nonrecursive_walk_is_shallow (directory : path) (encoding : string)
    (fs : filesystem) :
  ∃ fs' t,
    (∀ fuel, walk_fuel fs directory ≤ fuel →
       process_directory fuel directory encoding false fs
       = Some (Ok (), fs', t))
    ∧ (∀ q, EvListdir q ∈ t → q = directory)
    ∧ visited t = match listdir_result fs directory with
                  | Ok names => os_path_join directory <$> names
                  | Raise _ => []
                  end.
Proof.
  destruct (process_directory_result encoding false directory fs)
    as (fs' & t & Hwalk & Hrun).
  exists fs', t. split; [done |].
  pose proof (walk_run_preorder _ _ _ _ _ _ _ Hwalk
                (max_depth_bounded fs)) as Hvis.
  rewrite preorder_nonrecursive in Hvis.
  unfold walk_run in Hwalk.
  destruct (listdir_result fs directory) as [names|e].
  - destruct Hwalk as (t' & Hloop & ->).
    destruct (loop_run_nonrecursive_events _ _ _ _ _ _ Hloop) as [Hnl _].
    split; [| done].
    intros q Hin. apply elem_of_cons in Hin as [Hin|Hin];
      [by injection Hin | by apply Hnl in Hin].
  - destruct Hwalk as [-> ->]. split; [| done].
    intros q Hin. apply elem_of_cons in Hin as [Hin|Hin];
      [by injection Hin |].
    apply elem_of_cons in Hin as [Hin|Hin]; [discriminate Hin |].
    by apply elem_of_nil in Hin.
Qed.

(** ** Walking twice *)

Lemma walk_run_effect (encoding : string) (recursive : bool) (d : path)
    (fs fs' : filesystem) (t : list event) :
  walk_run encoding recursive d fs fs' t →
  listings_distinct fs →
  ∀ p, fs' !! p
       = if decide (p ∈ visited t) then strip_entry encoding (fs !! p)
         else fs !! p.
Proof.
  unfold walk_run.
  destruct (listdir_result fs d) as [names|e] eqn:Hl.
  - intros (t' & Hloop & ->) Hwf p. apply listdir_result_Ok in Hl.
    apply (loop_run_effect _ _ _ _ _ _ _ Hloop Hwf (Hwf _ _ _ Hl) p).
  - intros [-> ->] _ p. case_decide as Hin; [| done].
    apply elem_of_visited in Hin.
    repeat (apply elem_of_cons in Hin as [Hin|Hin]; [discriminate Hin |]).
    by apply elem_of_nil in Hin.
Qed.

Lemma strip_entry_twice (encoding : string) (sig : bytes) (o : option entry) :
  BOM_ENCODINGS !! encoding = Some sig →
  (∀ r w B, o = Some (File r w B) → ¬ (sig ++ sig) `prefix_of` B) →
  strip_entry encoding (strip_entry encoding o) = strip_entry encoding o.
Proof.
  intros He Hno. unfold strip_entry. rewrite He.
  destruct o as [[[] [] B| |]|]; try done.
  destruct (startswith B sig) eqn:Hs; [| by rewrite Hs].
  destruct (startswith (slice_from (length sig) B) sig) eqn:Hs2; [| done].
  exfalso. apply (Hno true true B eq_refl).
  apply startswith_prefix in Hs, Hs2.
  apply prefix_slice_from in Hs. destruct Hs2 as [k Hk].
  exists k. rewrite Hs at 1. rewrite Hk. by rewrite <- app_assoc.
Qed.

(** X11.  Running the walk again is harmless: on a file system whose
    listings have no duplicates and where no file starts with the
    signature twice, a second walk of the same directory, started where
    the first one ended, returns and leaves the file system exactly as the
    first walk left it. *)
Theorem walk_twice (directory : path) (encoding : string) (sig : bytes)
    (recursive : bool) (fs : filesystem) :
  BOM_ENCODINGS !! encoding = Some sig →
  listings_distinct fs →
  no_double_bom sig fs →
  ∃ fs' t t2,
    (∀ fuel, walk_fuel fs directory ≤ fuel →
       process_directory fuel directory encoding recursive fs
       = Some (Ok (), fs', t))
    ∧ (∀ fuel, walk_fuel fs' directory ≤ fuel →
         process_directory fuel directory encoding recursive fs'
         = Some (Ok (), fs', t2)).
Proof.
  intros He Hwf Hno.
  destruct (process_directory_result encoding recursive directory fs)
    as (fs' & t & Hwalk & Hrun).
  destruct (process_directory_result encoding recursive directory fs')
    as (fs'' & t2 & Hwalk2 & Hrun2).
  assert (same_shape fs fs') as Hs.
  { unfold walk_run in Hwalk.
    destruct (listdir_result fs directory).
    - destruct Hwalk as (t' & Hloop & _). by eapply loop_run_same_shape.
    - destruct Hwalk as [-> _]. apply same_shape_refl. }
  assert (visited t2 = visited t) as Hvis.
  { rewrite (walk_run_preorder _ _ _ _ _ _ (max_depth fs) Hwalk
               (max_depth_bounded fs)).
    rewrite (walk_run_preorder _ _ _ _ _ _ (max_depth fs) Hwalk2
               (same_shape_depth_bounded _ _ _ Hs (max_depth_bounded fs))).
    by apply preorder_same_shape. }
  assert (fs'' = fs') as ->; [| by exists fs', t, t2].
  apply map_eq. intros p.
  rewrite (walk_run_effect _ _ _ _ _ _ Hwalk2
             (same_shape_listings_distinct _ _ Hs Hwf) p).
  rewrite Hvis. case_decide as Hin; [| done].
  rewrite (walk_run_effect _ _ _ _ _ _ Hwalk Hwf p).
  rewrite decide_True by done.
  apply (strip_entry_twice encoding sig); [done |].
  intros r w B. apply Hno.
Qed.

Lemma tree_fs_no_double_bom : no_double_bom BOM_UTF8 tree_fs.
Proof.
  intros q r w B. unfold tree_fs.
  rewrite !lookup_insert, lookup_empty.
  repeat (destruct (decide (_ = q)) as [<-|?];
          [intros [= <- <- <-] || discriminate |]);
    [.. | discriminate];
    intros [k Hk]; discriminate Hk.
Qed.

Lemma walk_twice_tree :
  ∃ fs' t t2,
    (∀ fuel, walk_fuel tree_fs ["D"] ≤ fuel →
       process_directory fuel ["D"] "utf-8" true tree_fs
       = Some (Ok (), fs', t))
    ∧ (∀ fuel, walk_fuel fs' ["D"] ≤ fuel →
         process_directory fuel ["D"] "utf-8" true fs'
         = Some (Ok (), fs', t2)).
Proof.
  apply (walk_twice ["D"] "utf-8" BOM_UTF8 true tree_fs).
  - vm_compute. reflexivity.
  - apply tree_fs_listings_distinct.
  - apply tree_fs_no_double_bom.
Defined.

(** ** A walk without failures *)

Lemma same_shape_all_accessible (fs fs' : filesystem) :
  same_shape fs fs' → all_accessible fs → all_accessible fs'.
Proof.
  intros Hs Ha q e Hq. specialize (Hs q). rewrite Hq in Hs.
  destruct (fs !! q) as [e0|] eqn:Hq0; [| discriminate].
  specialize (Ha q e0 Hq0). simpl in Hs.
  destruct e0, e; simpl in Hs; by simplify_eq.
Qed.

Lemma process_file_clean (file_path : path) (encoding : string)
    (fs : filesystem) (B : bytes) :
  fs !! file_path = Some (File true true B) →
  is_Some (BOM_ENCODINGS !! encoding) →
  ∀ msg, EvLog ERROR msg ∉ (process_file file_path encoding fs).2.
Proof.
  intros Hf [sig He] msg. rewrite process_file_unfold. simpl.
  assert (read_result fs file_path = Ok B) as Hr
    by (apply read_result_Ok; by exists true).
  destruct (startswith B sig) eqn:Hs.
  - rewrite (remove_bom_stripped _ _ _ _ _ Hf He Hs). simpl. intros Hin.
    repeat (apply elem_of_cons in Hin as [Hin|Hin]; [discriminate Hin |]).
    by apply elem_of_nil in Hin.
  - rewrite (remove_bom_no_bom _ _ _ _ _ Hr He Hs). simpl. intros Hin.
    repeat (apply elem_of_cons in Hin as [Hin|Hin]; [discriminate Hin |]).
    by apply elem_of_nil in Hin.
Qed.

Lemma loop_run_clean (encoding : string) (recursive : bool) (d : path)
    (items : list string) (fs fs' : filesystem) (t : list event) :
  loop_run encoding recursive d items fs fs' t →
  all_accessible fs → is_Some (BOM_ENCODINGS !! encoding) →
  ∀ msg, EvLog ERROR msg ∉ t.
Proof.
  induction 1 as [d fs
                 |d item rest fs fs' t Hf Hrest IHrest
                 |d item rest fs names fs1 t1 fs' t Hf Hd Hrec Hl
                    Hsub IHsub Hrest IHrest
                 |d item rest fs e fs' t Hf Hd Hrec Hl Hrest IHrest
                 |d item rest fs fs' t Hf Hd Hrec Hrest IHrest
                 |d item rest fs fs' t Hf Hd Hrest IHrest];
    intros Ha He msg Hin;
    try (repeat (apply elem_of_cons in Hin as [Hin|Hin];
                 [discriminate Hin |]);
         first [by apply elem_of_nil in Hin | by eapply IHrest]).
  - apply elem_of_cons in Hin as [Hin|Hin]; [discriminate Hin |].
    apply elem_of_app in Hin as [Hin|Hin].
    + unfold is_file in Hf.
      destruct (fs !! os_path_join d item) as [[r w B| |]|] eqn:Hq;
        try discriminate.
      destruct (Ha _ _ Hq) as [-> ->].
      by eapply process_file_clean.
    + eapply IHrest; [| done..].
      eapply same_shape_all_accessible; [| done].
      apply process_file_same_shape.
  - do 3 (apply elem_of_cons in Hin as [Hin|Hin]; [discriminate Hin |]).
    apply elem_of_app in Hin as [Hin|Hin]; [by eapply IHsub |].
    eapply IHrest; [| done..].
    eapply same_shape_all_accessible; [| done].
    by eapply loop_run_same_shape.
  - unfold listdir_result in Hl.
    destruct (fs !! os_path_join d item) as [[| [] names|]|] eqn:Hq;
      try discriminate; unfold is_dir in Hd; rewrite Hq in Hd;
      try discriminate.
    by specialize (Ha _ _ Hq).
Qed.

(** X12.  When every permission bit of the file system is set, the
    encoding is one of the three of the table, the path walked is a
    directory and the stack has room for the nesting of the tree below it,
    the walk logs nothing at error level. *)
Theorem walk_without_failures (directory : path) (encoding : string)
    (recursive : bool) (fs : filesystem) :
  all_accessible fs →
  encoding ∈ encoding_choices →
  is_dir fs directory = true →
  ∃ fs' t,
    (∀ fuel, walk_fuel fs directory ≤ fuel →
       process_directory fuel directory encoding recursive fs
       = Some (Ok (), fs', t))
    ∧ ∀ msg, EvLog ERROR msg ∉ t.
Proof.
  intros Ha He Hd. apply BOM_ENCODINGS_supported in He.
  destruct (process_directory_result encoding recursive directory fs)
    as (fs' & t & Hwalk & Hrun).
  exists fs', t. split; [done |]. unfold walk_run in Hwalk.
  unfold is_dir in Hd.
  destruct (fs !! directory) as [[|l names|]|] eqn:Hq; try discriminate.
  pose proof (Ha _ _ Hq) as Hl. simpl in Hl. subst l.
  rewrite (proj2 (listdir_result_Ok _ _ _) Hq) in Hwalk.
  destruct Hwalk as (t' & Hloop & ->). intros msg Hin.
  apply elem_of_cons in Hin as [Hin|Hin]; [discriminate Hin |].
  by eapply loop_run_clean.
Qed.

Lemma tree_fs_all_accessible : all_accessible tree_fs.
Proof.
  intros q e. unfold tree_fs.
  rewrite !lookup_insert, lookup_empty.
  repeat (destruct (decide (_ = q)) as [<-|?];
          [by intros [= <-] |]).
  discriminate.
Qed.

Lemma walk_without_failures_tree :
  ∃ fs' t,
    (∀ fuel, walk_fuel tree_fs ["D"] ≤ fuel →
       process_directory fuel ["D"] "utf-8" true tree_fs
       = Some (Ok (), fs', t))
    ∧ ∀ msg, EvLog ERROR msg ∉ t.
Proof.
  apply (walk_without_failures ["D"] "utf-8" true tree_fs).
  - apply tree_fs_all_accessible.
  - apply (bool_decide_unpack _). vm_compute. exact I.
  - vm_compute. reflexivity.
Defined.

(** ** [main], branch by branch *)

Lemma truthy_Some (o : option path) :
  truthy o = true ↔ ∃ p, o = Some p ∧ p ≠ [].
Proof.
  unfold truthy. split.
  - destruct o as [[|c p]|]; try discriminate. intros _. by eexists.
  - intros (p & -> & Hp). by destruct p.
Qed.

Lemma main_body_file (fuel : nat) (args : Namespace) (fs : filesystem)
    (file_path : path) :
  args_file args = Some file_path → file_path ≠ [] →
  main_body fuel args fs =
    if is_file fs file_path then
      Some (Ok (),
            (process_file file_path (args_encoding args) fs).1.2,
            verbose_line args
            ++ EvIsfile file_path
               :: (process_file file_path (args_encoding args) fs).2)
    else
      Some (Ok (), fs,
            verbose_line args
            ++ [EvIsfile file_path;
                EvLog ERROR (msg_file_not_found file_path)]).
Proof.
  intros Hf Hne. unfold main_body, verbose_line.
  rewrite (proj2 (truthy_Some _)) by by exists file_path.
  rewrite Hf. simpl.
  pose proof (process_file_never_raises file_path (args_encoding args) fs)
    as Hok.
  unfold mbind, MF_bind, lift, mret, MF_ret, os_path_isfile, logging_debug,
    logging_error, logging_log.
  destruct (process_file file_path (args_encoding args) fs)
    as [[r0 fs0] t0] eqn:Hpf.
  simpl in Hok. subst r0.
  destruct (args_verbose args), (is_file fs file_path); simpl;
    by rewrite ?Hpf.
Qed.

Lemma main_body_directory (fuel : nat) (args : Namespace) (fs : filesystem)
    (directory_path : path) :
  truthy (args_file args) = false →
  args_directory args = Some directory_path → directory_path ≠ [] →
  main_body fuel args fs =
    if is_dir fs directory_path then
      match process_directory fuel directory_path (args_encoding args)
              (args_recursive args) fs with
      | Some (r, fs', t) =>
          Some (r, fs', verbose_line args ++ EvIsdir directory_path :: t)
      | None => None
      end
    else
      Some (Ok (), fs,
            verbose_line args
            ++ [EvIsdir directory_path;
                EvLog ERROR (msg_directory_not_found directory_path)]).
Proof.
  intros Hnf Hd Hne. unfold main_body, verbose_line.
  rewrite Hnf.
  rewrite (proj2 (truthy_Some _)) by by exists directory_path.
  rewrite Hd. simpl.
  unfold mbind, MF_bind, lift, mret, MF_ret, os_path_isdir, logging_debug,
    logging_error, logging_log.
  destruct (args_verbose args), (is_dir fs directory_path); simpl;
    try done;
    by destruct (process_directory fuel directory_path _ _ fs)
      as [[[r1 fs1] t1]|].
Qed.

Lemma main_body_nothing (fuel : nat) (args : Namespace) (fs : filesystem) :
  truthy (args_file args) = false →
  truthy (args_directory args) = false →
  main_body fuel args fs = Some (Ok (), fs, verbose_line args).
Proof.
  intros Hf Hd. unfold main_body, verbose_line. rewrite Hf, Hd.
  unfold mbind, MF_bind, lift, mret, MF_ret, logging_debug, logging_log.
  by destruct (args_verbose args).
Qed.

Lemma displayed_app (lvl : level) (t1 t2 : list event) :
  displayed lvl (t1 ++ t2) = displayed lvl t1 ++ displayed lvl t2.
Proof. apply omap_app. Qed.

Lemma displayed_verbose_line (args : Namespace) (pr : process) :
  logger_level pr = INFO →
  displayed (level_after args pr) (verbose_line args)
  = if args_verbose args then [(DEBUG, msg_verbose)] else [].
Proof.
  intros Hl. unfold level_after, verbose_line.
  by destruct (args_verbose args).
Qed.

Lemma main_unfold (fuel : nat) (args : Namespace) (pr : process) :
  main fuel args pr =
    match main_body fuel args (files pr) with
    | Some (r, fs', t) =>
        Some (r, {| logger_level := level_after args pr; files := fs' |}, t)
    | None => None
    end.
Proof. reflexivity. Qed.

(** What any run of [main] that returns looks like. *)
Lemma main_run (fuel : nat) (args : Namespace) (pr : process)
    (r : result unit) (pr' : process) (t : list event) :
  main fuel args pr = Some (r, pr', t) →
  r = Ok ()
  ∧ logger_level pr' = level_after args pr
  ∧ same_shape (files pr) (files pr')
  ∧ ∀ lvl msg, EvLog lvl msg ∈ t →
      walk_vocabulary (args_encoding args) lvl msg
      ∨ (lvl = DEBUG ∧ msg = msg_verbose)
      ∨ (lvl = ERROR ∧ ∃ p, msg = msg_file_not_found p)
      ∨ (lvl = ERROR ∧ ∃ p, msg = msg_directory_not_found p).
Proof.
  rewrite main_unfold.
  assert (∀ lvl msg, EvLog lvl msg ∈ verbose_line args →
                     lvl = DEBUG ∧ msg = msg_verbose) as Hverb.
  { intros lvl msg. unfold verbose_line.
    destruct (args_verbose args); intros Hin;
      [| by apply elem_of_nil in Hin].
    apply elem_of_cons in Hin as [Hin|Hin]; [by injection Hin |].
    by apply elem_of_nil in Hin. }
  destruct (truthy (args_file args)) eqn:Hf.
  - apply truthy_Some in Hf as (p & Hp & Hne).
    rewrite (main_body_file fuel args (files pr) p Hp Hne).
    destruct (is_file (files pr) p); intros [= <- <- <-]; simpl;
      (split; [done | split; [done | split]]).
    + apply process_file_same_shape.
    + intros lvl msg Hin. apply elem_of_app in Hin as [Hin|Hin];
        [right; left; by apply Hverb |].
      apply elem_of_cons in Hin as [Hin|Hin]; [discriminate Hin |].
      left. left. by eapply process_file_vocabulary.
    + apply same_shape_refl.
    + intros lvl msg Hin. apply elem_of_app in Hin as [Hin|Hin];
        [right; left; by apply Hverb |].
      apply elem_of_cons in Hin as [Hin|Hin]; [discriminate Hin |].
      apply elem_of_cons in Hin as [Hin|Hin];
        [| by apply elem_of_nil in Hin].
      injection Hin as -> ->. right. right. left. eauto.
  - destruct (truthy (args_directory args)) eqn:Hd.
    + apply truthy_Some in Hd as (q & Hq & Hne).
      rewrite (main_body_directory fuel args (files pr) q Hf Hq Hne).
      destruct (is_dir (files pr) q).
      * destruct (process_directory fuel q _ _ (files pr))
          as [[[r1 fs1] t1]|] eqn:Hrun; [| discriminate].
        pose proof (process_directory_never_raises _ _ _ _ _ _ _ _ Hrun)
          as ->.
        apply process_directory_invariant in Hrun as (_ & Hs & Hv).
        intros [= <- <- <-]. simpl.
        split; [done | split; [done | split; [done |]]].
        intros lvl msg Hin. apply elem_of_app in Hin as [Hin|Hin];
          [right; left; by apply Hverb |].
        apply elem_of_cons in Hin as [Hin|Hin]; [discriminate Hin |].
        left. by apply Hv.
      * intros [= <- <- <-]. simpl.
        split; [done | split; [done | split; [apply same_shape_refl |]]].
        intros lvl msg Hin. apply elem_of_app in Hin as [Hin|Hin];
          [right; left; by apply Hverb |].
        apply elem_of_cons in Hin as [Hin|Hin]; [discriminate Hin |].
        apply elem_of_cons in Hin as [Hin|Hin];
          [| by apply elem_of_nil in Hin].
        injection Hin as -> ->. right. right. right. eauto.
    + rewrite (main_body_nothing fuel args (files pr) Hf Hd).
      intros [= <- <- <-]. simpl.
      split; [done | split; [done | split; [apply same_shape_refl |]]].
      intros lvl msg Hin. right. left. by apply Hverb.
Qed.

(** ** [main]: validation and exit *)

(** X13.  When the target [main] is given is not there -- [args.file] is
    set to a path that is not a regular file, or [args.file] is not set
    and [args.directory] is set to a path that is not a directory -- the
    run ends normally, the file system is untouched, nothing is opened,
    written or listed, and one line is logged at error level (lines
    128-132 and 134-138). *)
Theorem main_rejects_bad_target (fuel : nat) (args : Namespace)
    (pr : process) :
  (truthy (args_file args) = true
   ∧ is_file (files pr) (default [] (args_file args)) = false)
  ∨ (truthy (args_file args) = false
     ∧ truthy (args_directory args) = true
     ∧ is_dir (files pr) (default [] (args_directory args)) = false) →
  ∃ t check msg,
    main fuel args pr
    = Some (Ok (),
            {| logger_level := level_after args pr; files := files pr |},
            t)
    ∧ t = verbose_line args ++ [check; EvLog ERROR msg]
    ∧ (check = EvIsfile (default [] (args_file args))
       ∧ msg = msg_file_not_found (default [] (args_file args))
       ∨ check = EvIsdir (default [] (args_directory args))
         ∧ msg = msg_directory_not_found
                   (default [] (args_directory args))).
Proof.
  intros [[Hf Hnf]|(Hf & Hd & Hnd)]; rewrite main_unfold.
  - apply truthy_Some in Hf as (p & Hp & Hne). rewrite Hp in *. simpl in *.
    rewrite (main_body_file fuel args (files pr) p Hp Hne), Hnf.
    eexists _, _, _. split; [done |]. split; [done |]. by left.
  - apply truthy_Some in Hd as (q & Hq & Hne). rewrite Hq in *. simpl in *.
    rewrite (main_body_directory fuel args (files pr) q Hf Hq Hne), Hnd.
    eexists _, _, _. split; [done |]. split; [done |]. by right.
Qed.

Lemma main_rejects_bad_target_missing :
  ∃ t check msg,
    main 0 args_missing (initial_process hello_fs)
    = Some (Ok (),
            {| logger_level := level_after args_missing
                                 (initial_process hello_fs);
               files := hello_fs |}, t)
    ∧ t = verbose_line args_missing ++ [check; EvLog ERROR msg]
    ∧ (check = EvIsfile (default [] (args_file args_missing))
       ∧ msg = msg_file_not_found (default [] (args_file args_missing))
       ∨ check = EvIsdir (default [] (args_directory args_missing))
         ∧ msg = msg_directory_not_found
                   (default [] (args_directory args_missing))).
Proof.
  apply (main_rejects_bad_target 0 args_missing (initial_process hello_fs)).
  left. split; vm_compute; reflexivity.
Defined.

(** X14.  When neither [args.file] nor [args.directory] is a non-empty
    path, [main] does nothing: nothing is examined and nothing is logged
    but the line of [--verbose].  The empty string given as [--file] is
    such a case; it is not reported as a file that is not found. *)
Theorem main_without_target (fuel : nat) (args : Namespace) (pr : process) :
  truthy (args_file args) = false →
  truthy (args_directory args) = false →
  main fuel args pr
  = Some (Ok (),
          {| logger_level := level_after args pr; files := files pr |},
          verbose_line args).
Proof.
  intros Hf Hd. rewrite main_unfold.
  by rewrite (main_body_nothing fuel args (files pr) Hf Hd).
Qed.

Lemma main_without_target_empty_file :
  main 0 args_empty_file (initial_process hello_fs)
  = Some (Ok (),
          {| logger_level := level_after args_empty_file
                               (initial_process hello_fs);
             files := hello_fs |},
          verbose_line args_empty_file).
Proof.
  apply (main_without_target 0 args_empty_file (initial_process hello_fs));
    reflexivity.
Defined.

Lemma vocabulary_not_unsupported (encoding : string) (lvl : level)
    (msg : string) :
  is_Some (BOM_ENCODINGS !! encoding) →
  log_vocabulary encoding lvl msg →
  ∀ encoding', msg ≠ msg_unsupported encoding'.
Proof.
  intros [sig He]. unfold log_vocabulary.
  intros [(_ & _ & Hn)|[(_ & p & ->)|[(_ & p & ->)|[(_ & p & ->)
         |[(_ & p & e & ->)|[(_ & p & ->)|[(_ & p & ->)|(_ & p & e & ->)]]]]]]];
    [congruence | ..]; intros encoding'; unfold msg_unsupported;
    simpl; discriminate.
Qed.

(** X15.  With an encoding among the choices the parser accepts (line
    109), no run of [main] ever logs "Unsupported encoding": the guard of
    lines 34-36 is not reached from the command line. *)
Theorem main_never_unsupported (args : Namespace) :
  args_encoding args ∈ encoding_choices →
  ∀ fuel pr r pr' t,
    main fuel args pr = Some (r, pr', t) →
    ∀ lvl encoding', EvLog lvl (msg_unsupported encoding') ∉ t.
Proof.
  intros He fuel pr r pr' t Hrun lvl encoding' Hin.
  apply BOM_ENCODINGS_supported in He.
  destruct (main_run _ _ _ _ _ _ Hrun) as (_ & _ & _ & Hvoc).
  destruct (Hvoc _ _ Hin)
    as [[Hv|(_ & p & Hm)]|[[_ Hm]|[(_ & p & Hm)|(_ & p & Hm)]]].
  - by destruct (vocabulary_not_unsupported _ _ _ He Hv encoding').
  - discriminate Hm.
  - discriminate Hm.
  - discriminate Hm.
  - discriminate Hm.
Qed.

Lemma main_never_unsupported_tree :
  args_encoding args_tree ∈ encoding_choices
  ∧ ∀ fuel pr r pr' t,
      main fuel args_tree pr = Some (r, pr', t) →
      ∀ lvl encoding', EvLog lvl (msg_unsupported encoding') ∉ t.
Proof.
  assert (args_encoding args_tree ∈ encoding_choices) as He
    by (apply (bool_decide_unpack _); vm_compute; exact I).
  split; [exact He |].
  apply (main_never_unsupported args_tree He).
Defined.

(** X16.  [main] always exits normally: for every value of the arguments
    and every state, with the fuel [walk_fuel] computes for the directory
    argument or more, [main] returns without exception, leaving the logger
    at [DEBUG] exactly when [--verbose] is given and a file system of the
    same shape; and whenever it returns, with any fuel, it does so without
    exception. *)
Theorem main_always_returns (fuel : nat) (args : Namespace) (pr : process) :
  walk_fuel (files pr) (default [] (args_directory args)) ≤ fuel →
  (∃ pr' t,
     main fuel args pr = Some (Ok (), pr', t)
     ∧ logger_level pr' = level_after args pr
     ∧ same_shape (files pr) (files pr'))
  ∧ (∀ fuel' r pr' t, main fuel' args pr = Some (r, pr', t) → r = Ok ()).
Proof.
  intros Hfuel. split.
  - assert (∃ r pr' t, main fuel args pr = Some (r, pr', t))
      as (r & pr' & t & Hrun).
    { rewrite main_unfold.
      destruct (truthy (args_file args)) eqn:Hf.
      - apply truthy_Some in Hf as (p & Hp & Hne).
        rewrite (main_body_file fuel args (files pr) p Hp Hne).
        destruct (is_file (files pr) p); by eexists _, _, _.
      - destruct (truthy (args_directory args)) eqn:Hd.
        + apply truthy_Some in Hd as (q & Hq & Hne).
          rewrite (main_body_directory fuel args (files pr) q Hf Hq Hne).
          rewrite Hq in Hfuel. simpl in Hfuel.
          destruct (process_directory_terminates (args_encoding args)
                      (args_recursive args) q (files pr) fuel Hfuel)
            as (fs' & t & -> & _).
          destruct (is_dir (files pr) q); by eexists _, _, _.
        + rewrite (main_body_nothing fuel args (files pr) Hf Hd).
          by eexists _, _, _. }
    destruct (main_run _ _ _ _ _ _ Hrun) as (-> & Hl & Hs & _).
    by exists pr', t.
  - intros fuel' r pr' t Hrun. by apply main_run in Hrun as [-> _].
Qed.

Lemma main_always_returns_tree :
  (∃ pr' t,
     main 3 args_tree (initial_process tree_fs) = Some (Ok (), pr', t)
     ∧ logger_level pr' = level_after args_tree (initial_process tree_fs)
     ∧ same_shape (files (initial_process tree_fs)) (files pr'))
  ∧ (∀ fuel' r pr' t,
       main fuel' args_tree (initial_process tree_fs) = Some (r, pr', t) →
       r = Ok ()).
Proof.
  apply (main_always_returns 3 args_tree (initial_process tree_fs)).
  vm_compute. lia.
Defined.

(** ** [main] on a single file, as the user sees it *)

(** X17.  End to end on a file with a BOM: with [args.file] a readable,
    writable file whose content is the signature of [args.encoding]
    followed by [rest], and the logger as line 8 configures it, [main]
    ends normally, the file holds exactly [rest], nothing else changes,
    and the lines shown are "BOM found ..." and "BOM removed ...", after
    the line of [--verbose] when it is given. *)
Theorem main_strips_file (fuel : nat) (args : Namespace) (pr : process)
    (file_path : path) (sig rest : bytes) :
  args_file args = Some file_path → file_path ≠ [] →
  logger_level pr = INFO →
  BOM_ENCODINGS !! args_encoding args = Some sig →
  files pr !! file_path = Some (File true true (sig ++ rest)) →
  ∃ t,
    main fuel args pr
    = Some (Ok (),
            {| logger_level := level_after args pr;
               files := <[file_path := File true true rest]> (files pr) |},
            t)
    ∧ displayed (level_after args pr) t
      = (if args_verbose args then [(DEBUG, msg_verbose)] else [])
        ++ [(INFO, msg_bom_found file_path (args_encoding args));
            (INFO, msg_bom_removed file_path)].
Proof.
  intros Hp Hne Hl He Hf. rewrite main_unfold.
  rewrite (main_body_file fuel args (files pr) file_path Hp Hne).
  unfold is_file. rewrite Hf. rewrite process_file_unfold.
  rewrite (remove_bom_stripped _ _ _ _ _ Hf He (startswith_app sig rest)).
  simpl. unfold slice_from. rewrite drop_app_length.
  eexists. split; [done |].
  rewrite displayed_app, (displayed_verbose_line args pr Hl).
  f_equal. unfold level_after. rewrite Hl.
  by destruct (args_verbose args).
Qed.

Lemma main_strips_file_hello :
  ∃ t,
    main 0 args_hello (initial_process hello_fs)
    = Some (Ok (),
            {| logger_level := level_after args_hello
                                 (initial_process hello_fs);
               files := <[ ["hello.txt"]
                           := File true true [x48; x65; x6c; x6c; x6f] ]>
                          (files (initial_process hello_fs)) |},
            t)
    ∧ displayed (level_after args_hello (initial_process hello_fs)) t
      = (if args_verbose args_hello then [(DEBUG, msg_verbose)] else [])
        ++ [(INFO, msg_bom_found ["hello.txt"] (args_encoding args_hello));
            (INFO, msg_bom_removed ["hello.txt"])].
Proof.
  apply (main_strips_file 0 args_hello (initial_process hello_fs)
           ["hello.txt"] BOM_UTF8 [x48; x65; x6c; x6c; x6f]).
  - reflexivity.
  - discriminate.
  - reflexivity.
  - vm_compute. reflexivity.
  - apply lookup_singleton_eq.
Defined.

(** X18.  End to end on a file without a BOM: with [args.file] a readable
    file whose content does not start with the signature of
    [args.encoding], and the logger as line 8 configures it, [main] ends
    normally and leaves the file system as it was; without [--verbose]
    nothing at all is shown, and with it the two debug lines are. *)
Theorem main_without_bom_is_quiet (fuel : nat) (args : Namespace)
    (pr : process) (file_path : path) (sig B : bytes) (wr : bool) :
  args_file args = Some file_path → file_path ≠ [] →
  logger_level pr = INFO →
  BOM_ENCODINGS !! args_encoding args = Some sig →
  files pr !! file_path = Some (File true wr B) →
  ¬ sig `prefix_of` B →
  ∃ t,
    main fuel args pr
    = Some (Ok (),
            {| logger_level := level_after args pr; files := files pr |},
            t)
    ∧ displayed (level_after args pr) t
      = if args_verbose args
        then [(DEBUG, msg_verbose);
              (DEBUG, msg_no_bom file_path (args_encoding args))]
        else [].
Proof.
  intros Hp Hne Hl He Hf Hnp. rewrite main_unfold.
  rewrite (main_body_file fuel args (files pr) file_path Hp Hne).
  unfold is_file. rewrite Hf. rewrite process_file_unfold.
  rewrite (remove_bom_no_bom _ _ _ B sig);
    [| apply read_result_Ok; by exists wr | done
     | by apply startswith_false].
  simpl. eexists. split; [done |].
  rewrite displayed_app, (displayed_verbose_line args pr Hl).
  unfold level_after. rewrite Hl.
  by destruct (args_verbose args).
Qed.

Lemma main_without_bom_is_quiet_plain :
  ∃ t,
    main 0 args_plain_verbose (initial_process plain_fs)
    = Some (Ok (),
            {| logger_level := level_after args_plain_verbose
                                 (initial_process plain_fs);
               files := files (initial_process plain_fs) |},
            t)
    ∧ displayed (level_after args_plain_verbose (initial_process plain_fs))
        t
      = if args_verbose args_plain_verbose
        then [(DEBUG, msg_verbose);
              (DEBUG, msg_no_bom ["plain.txt"]
                        (args_encoding args_plain_verbose))]
        else [].
Proof.
  apply (main_without_bom_is_quiet 0 args_plain_verbose
           (initial_process plain_fs) ["plain.txt"] BOM_UTF8 [x48; x69]
           true).
  - reflexivity.
  - discriminate.
  - reflexivity.
  - vm_compute. reflexivity.
  - apply lookup_singleton_eq.
  - intros [k Hk]. discriminate Hk.
Defined.
